(** * The diskcache job queue of [utilities/diskcache_backend.py]

    A shallow embedding of the queue, job, registry, worker and statistics
    code of [utilities/diskcache_backend.py] (with the statistics entry point
    of [netbox/django_rq/utils.py] and the job helpers of [core/utils.py]),
    and the properties of it that the specification states.

    Modelling conventions.
    - Python objects that are shared and mutated ([Job] instances) live in a
      heap, a list indexed by allocation order; a reference is an index.
      A snapshot of [queue.jobs] is therefore a list of references, and a
      change made to a job through one reference is seen through all.
    - The module-level dictionaries [_QUEUES], [_WORKERS] and the durable
      diskcache structures (one [Deque] per queue name, one [Index] per
      registry key) are fields of one [World].  A queue is reached through
      [get_queue], one object per name, so a reference to a queue is its name.
    - [datetime.now()] reads a clock that advances at each read;
      [uuid.uuid4().hex] reads a supply indexed by the number of draws.
    - A job target is opaque code: it is named by a [FuncId], and its
      behaviour, a function from the world to an outcome and a new world, is
      a parameter of the worker.
    - Logging is not modelled, except that the worker returns the list of
      jobs for which it reached the line that logs [Executing job]. *)

From Stdlib Require Import ZArith.
From stdpp Require Import gmap strings list fin_maps pretty.

Open Scope string_scope.

(** ** Python values *)

Inductive Value :=
| VNone
| VBool (b : bool)
| VInt (z : Z)
| VStr (s : string)
| VRef (l : nat).

(** Truth value of an object, as [if x], [x or y] and [not x] test it. *)
Definition truthy (v : Value) : bool :=
  match v with
  | VNone => false
  | VBool b => b
  | VInt z => negb (z =? 0)%Z
  | VStr s => negb (String.eqb s "")
  | VRef _ => true
  end.

Definition FuncId := string.

(** What a job stores in [func]: any object; [callable(job.func)] tells the
    two cases apart. *)
Inductive Target :=
| Callable (f : FuncId)
| NotCallable (v : Value).

Definition callable (t : Target) : bool :=
  match t with Callable _ => true | NotCallable _ => false end.

(** What a raised object is: an instance of [Exception], which
    [except Exception] catches, or of [BaseException] only
    ([SystemExit], [KeyboardInterrupt], [GeneratorExit]), which it does not.
    [text] is [str(e)]. *)
Inductive Raised :=
| OfException (text : string)
| OfBaseExceptionOnly (text : string).

Inductive Outcome :=
| Returns (v : Value)
| Raises (e : Raised).

(** ** JobStatus *)

Module JobStatus.
Definition QUEUED := "queued".
Definition STARTED := "started".
Definition FINISHED := "finished".
Definition FAILED := "failed".
Definition DEFERRED := "deferred".
Definition SCHEDULED := "scheduled".
Definition STOPPED := "stopped".
Definition CANCELED := "canceled".

Definition terminal (status : string) : bool :=
  String.eqb status FINISHED || String.eqb status FAILED
  || String.eqb status STOPPED || String.eqb status CANCELED.
End JobStatus.

(** ** Job *)

(** The fields of [Job] that the queue, the worker and the helpers read or
    write.  The other attributes set by [__init__] ([func_name],
    [description], [serializer], [timeout], [result_ttl], [worker_name],
    [meta], [last_heartbeat], ...) are constants no operation below touches.
    [scheduled_at] is [None] here until [enqueue_at] creates the attribute. *)
Record Job := mkJob {
  id : string;
  origin : string;
  status : string;
  created_at : nat;
  enqueued_at : option nat;
  started_at : option nat;
  ended_at : option nat;
  result : Value;
  exc_info : option string;
  func : Target;
  args : list Value;
  kwargs : gmap string Value;
  scheduled_at : option Value
}.

Module Job.
Definition with_status (s : string) (j : Job) : Job :=
  mkJob (id j) (origin j) s (created_at j) (enqueued_at j) (started_at j)
        (ended_at j) (result j) (exc_info j) (func j) (args j) (kwargs j)
        (scheduled_at j).
Definition with_enqueued_at (t : option nat) (j : Job) : Job :=
  mkJob (id j) (origin j) (status j) (created_at j) t (started_at j)
        (ended_at j) (result j) (exc_info j) (func j) (args j) (kwargs j)
        (scheduled_at j).
Definition with_started_at (t : option nat) (j : Job) : Job :=
  mkJob (id j) (origin j) (status j) (created_at j) (enqueued_at j) t
        (ended_at j) (result j) (exc_info j) (func j) (args j) (kwargs j)
        (scheduled_at j).
Definition with_ended_at (t : option nat) (j : Job) : Job :=
  mkJob (id j) (origin j) (status j) (created_at j) (enqueued_at j)
        (started_at j) t (result j) (exc_info j) (func j) (args j) (kwargs j)
        (scheduled_at j).
Definition with_result (v : Value) (j : Job) : Job :=
  mkJob (id j) (origin j) (status j) (created_at j) (enqueued_at j)
        (started_at j) (ended_at j) v (exc_info j) (func j) (args j)
        (kwargs j) (scheduled_at j).
Definition with_exc_info (e : option string) (j : Job) : Job :=
  mkJob (id j) (origin j) (status j) (created_at j) (enqueued_at j)
        (started_at j) (ended_at j) (result j) e (func j) (args j)
        (kwargs j) (scheduled_at j).
Definition with_args (a : list Value) (k : gmap string Value) (j : Job) : Job :=
  mkJob (id j) (origin j) (status j) (created_at j) (enqueued_at j)
        (started_at j) (ended_at j) (result j) (exc_info j) (func j) a k
        (scheduled_at j).
Definition with_scheduled_at (t : option Value) (j : Job) : Job :=
  mkJob (id j) (origin j) (status j) (created_at j) (enqueued_at j)
        (started_at j) (ended_at j) (result j) (exc_info j) (func j)
        (args j) (kwargs j) t.

(** [Job.__init__(id, connection, origin, func)] for a truthy [id], the only
    way the queue calls it; [now] is the [datetime.now()] it reads. *)
Definition init (id origin : string) (func : Target) (now : nat) : Job :=
  mkJob id (if String.eqb origin "" then "default" else origin)
        JobStatus.QUEUED now None None None VNone None func [] ∅ None.

(** [Job.set_status(status, persist)] on the object itself; [now] is the
    [datetime.now()] it reads.  [persist] is not used by the body. *)
Definition set_status (s : string) (now : nat) (j : Job) : Job :=
  let j := with_status s j in
  if String.eqb s JobStatus.QUEUED then with_enqueued_at (Some now) j
  else if String.eqb s JobStatus.STARTED then with_started_at (Some now) j
  else if JobStatus.terminal s then with_ended_at (Some now) j
  else j.

Definition get_status (j : Job) : string := status j.
Definition is_failed (j : Job) : bool := String.eqb (status j) JobStatus.FAILED.
Definition is_finished (j : Job) : bool := String.eqb (status j) JobStatus.FINISHED.
Definition is_queued (j : Job) : bool := String.eqb (status j) JobStatus.QUEUED.
Definition is_started (j : Job) : bool := String.eqb (status j) JobStatus.STARTED.
Definition is_deferred (j : Job) : bool := String.eqb (status j) JobStatus.DEFERRED.
Definition is_scheduled (j : Job) : bool := String.eqb (status j) JobStatus.SCHEDULED.
End Job.

(** ** Worker objects *)

(** [pid], [birth_date] and [total_working_time] are left out: nothing reads
    them.  [current_job] is [_current_job]. *)
Record Worker := mkWorker {
  worker_name : string;
  queues : list string;
  key : string;
  state : string;
  current_job : option nat;
  successful_job_count : nat;
  failed_job_count : nat
}.

(** ** The world *)

Record World := mkWorld {
  heap : list Job;
  (** [_QUEUES]: queue name to that queue's [_jobs], job id to job. *)
  _QUEUES : gmap string (gmap string nat);
  (** the durable [Deque] of each queue name: its ordering of job ids. *)
  deques : gmap string (list string);
  (** the durable [Index] of each registry key: its job ids. *)
  indexes : gmap string (gset string);
  _WORKERS : gmap string Worker;
  clock : nat;
  entropy : nat
}.

Module World.
Definition with_heap (h : list Job) (w : World) : World :=
  mkWorld h (_QUEUES w) (deques w) (indexes w) (_WORKERS w) (clock w) (entropy w).
Definition with_QUEUES (q : gmap string (gmap string nat)) (w : World) : World :=
  mkWorld (heap w) q (deques w) (indexes w) (_WORKERS w) (clock w) (entropy w).
Definition with_deques (d : gmap string (list string)) (w : World) : World :=
  mkWorld (heap w) (_QUEUES w) d (indexes w) (_WORKERS w) (clock w) (entropy w).
Definition with_indexes (r : gmap string (gset string)) (w : World) : World :=
  mkWorld (heap w) (_QUEUES w) (deques w) r (_WORKERS w) (clock w) (entropy w).
Definition with_WORKERS (k : gmap string Worker) (w : World) : World :=
  mkWorld (heap w) (_QUEUES w) (deques w) (indexes w) k (clock w) (entropy w).
Definition with_clock (c : nat) (w : World) : World :=
  mkWorld (heap w) (_QUEUES w) (deques w) (indexes w) (_WORKERS w) c (entropy w).
Definition with_entropy (e : nat) (w : World) : World :=
  mkWorld (heap w) (_QUEUES w) (deques w) (indexes w) (_WORKERS w) (clock w) e.

(** A process that has just imported the module over an empty cache
    directory. *)
Definition initial : World := mkWorld [] ∅ ∅ ∅ ∅ 0 0.

(** [datetime.now()]. *)
Definition now (w : World) : nat * World := (clock w, with_clock (S (clock w)) w).

(** Assignment to attributes of the job object behind a reference. *)
Definition update_job (l : nat) (f : Job → Job) (w : World) : World :=
  with_heap (alter f l (heap w)) w.

(** [job.set_status(status)] through a reference. *)
Definition set_status (l : nat) (s : string) (w : World) : World :=
  let '(t, w) := now w in update_job l (Job.set_status s t) w.
End World.

(** ** Registries *)

Inductive RegistryClass :=
| FailedJobRegistry
| StartedJobRegistry
| FinishedJobRegistry
| DeferredJobRegistry
| ScheduledJobRegistry
| CanceledJobRegistry.

Module BaseRegistry.
Definition class_name (c : RegistryClass) : string :=
  match c with
  | FailedJobRegistry => "FailedJobRegistry"
  | StartedJobRegistry => "StartedJobRegistry"
  | FinishedJobRegistry => "FinishedJobRegistry"
  | DeferredJobRegistry => "DeferredJobRegistry"
  | ScheduledJobRegistry => "ScheduledJobRegistry"
  | CanceledJobRegistry => "CanceledJobRegistry"
  end.

(** [f'{registry_type}:{name}'] *)
Definition registry_key (c : RegistryClass) (name : string) : string :=
  class_name c ++ ":" ++ name.

(** [self._index]: the durable index of the registry's key (empty when
    the key was never written). *)
Definition index (c : RegistryClass) (name : string) (w : World) : gset string :=
  default ∅ (indexes w !! registry_key c name).

(** [get_job_ids()]: [list(self._index.keys())].  The index is kept as a
    set, so the list has the ids of the code's list, each once, but not
    their insertion order: nothing below depends on the order of two ids. *)
Definition get_job_ids (c : RegistryClass) (name : string) (w : World) : list string :=
  elements (index c name w).

(** [add(job_or_id)] with the id already taken from the job. *)
Definition add (c : RegistryClass) (name : string) (job_id : string) (w : World) : World :=
  World.with_indexes
    (<[registry_key c name := {[job_id]} ∪ index c name w]> (indexes w)) w.

Definition remove (c : RegistryClass) (name : string) (job_id : string) (w : World) : World :=
  if bool_decide (job_id ∈ index c name w)
  then World.with_indexes
         (<[registry_key c name := index c name w ∖ {[job_id]}]> (indexes w)) w
  else w.

Definition len (c : RegistryClass) (name : string) (w : World) : nat :=
  size (index c name w).

Definition contains (c : RegistryClass) (name : string) (job_id : string) (w : World) : bool :=
  bool_decide (job_id ∈ index c name w).
End BaseRegistry.

(** ** Queue *)

Module Queue.
(** [self._jobs] and [self._deque] of the queue object named [q]. *)
Definition _jobs (q : string) (w : World) : gmap string nat :=
  default ∅ (_QUEUES w !! q).
Definition _deque (q : string) (w : World) : list string :=
  default [] (deques w !! q).

(** [[self._jobs[job_id] for job_id in self._deque if job_id in self._jobs]] *)
Definition jobs (q : string) (w : World) : list nat :=
  omap (λ job_id, _jobs q w !! job_id) (_deque q w).

Definition count (q : string) (w : World) : nat := size (_jobs q w).

Definition fetch_job (q : string) (job_id : string) (w : World) : option nat :=
  _jobs q w !! job_id.

Definition empty (q : string) (w : World) : World :=
  World.with_deques (<[q := []]> (deques w))
    (World.with_QUEUES (<[q := ∅]> (_QUEUES w)) w).

Definition get_jobs := jobs.

Section Enqueue.
(** [uuid.uuid4().hex] at the n-th draw. *)
Variable uuid4_hex : nat → string.

Definition uuid4 (w : World) : string * World :=
  (uuid4_hex (entropy w), World.with_entropy (S (entropy w)) w).

(** [enqueue(func, *args, **kwargs)].  The two keywords that the body
    pops from [kwargs] are the parameters [depends_on] ([VNone] when
    absent) and [job_id] ([None] when absent or [None]); [kwargs] is what
    remains.  Returns the reference to the new job. *)
Definition enqueue (q : string) (func : Target) (args : list Value)
    (kwargs : gmap string Value) (depends_on : Value)
    (job_id : option string) (w : World) : nat * World :=
  let '(job_id, w) :=
    match job_id with
    | Some s => if String.eqb s "" then uuid4 w else (s, w)
    | None => uuid4 w
    end in
  let '(created, w) := World.now w in
  let job := Job.with_args args kwargs (Job.init job_id q func created) in
  let '(t, w) := World.now w in
  let job :=
    Job.set_status
      (if truthy depends_on then JobStatus.DEFERRED else JobStatus.QUEUED)
      t job in
  let l := length (heap w) in
  let w := World.with_heap (heap w ++ [job])%list w in
  let w := World.with_QUEUES (<[q := <[id job := l]> (_jobs q w)]> (_QUEUES w)) w in
  let w := World.with_deques (<[q := (_deque q w ++ [id job])%list]> (deques w)) w in
  (l, w).

(** [enqueue_at(schedule_at, func, *args, **kwargs)] *)
Definition enqueue_at (q : string) (schedule_at : Value) (func : Target)
    (args : list Value) (kwargs : gmap string Value) (depends_on : Value)
    (job_id : option string) (w : World) : nat * World :=
  let '(l, w) := enqueue q func args kwargs depends_on job_id w in
  let w := World.update_job l (Job.with_scheduled_at (Some schedule_at)) w in
  let w :=
    match heap w !! l with
    | Some job => BaseRegistry.add ScheduledJobRegistry q (id job) w
    | None => w
    end in
  (l, w).
End Enqueue.
End Queue.

(** [get_queue(name)]: the queue object of that name, created with an empty
    [_jobs] over the durable deque of its name when [_QUEUES] has none. *)
Definition get_queue (name : string) (w : World) : World :=
  match _QUEUES w !! name with
  | Some _ => w
  | None => World.with_QUEUES (<[name := ∅]> (_QUEUES w)) w
  end.

(** ** Worker *)

(** How a drain ended: it returned, or an exception that [except Exception]
    does not catch left [work]. *)
Inductive Completion :=
| Returned
| Propagated (text : string).

Module Worker.
Section Construction.
Variable uuid4_hex : nat → string.

(** [Worker.__init__(queues, name)]: registers itself in [_WORKERS].
    The draw for [pid] is made, its value is not kept. *)
Definition init (qs : list string) (name : option string) (w : World)
    : Worker * World :=
  let '(name, w) :=
    match name with
    | Some s => if String.eqb s "" then Queue.uuid4 uuid4_hex w else (s, w)
    | None => Queue.uuid4 uuid4_hex w
    end in
  let '(_, w) := Queue.uuid4 uuid4_hex w in
  let self := mkWorker name qs ("rq:worker:" ++ name) "idle" None 0 0 in
  (self, World.with_WORKERS (<[key self := self]> (_WORKERS w)) w).

(** [get_worker(queue_name, name)]: a new worker registers itself under
    its own key in [__init__] and is then stored under [worker_key]; the two
    keys differ when [worker_name] is empty, where [__init__] draws a name. *)
Definition get_worker (queue_name : string) (name : option string) (w : World)
    : Worker * World :=
  let w := get_queue queue_name w in
  let worker_name :=
    match name with
    | Some s => if String.eqb s "" then queue_name else s
    | None => queue_name
    end in
  let worker_key := "rq:worker:" ++ worker_name in
  match _WORKERS w !! worker_key with
  | None =>
      let '(worker, w) := init [queue_name] (Some worker_name) w in
      (worker, World.with_WORKERS (<[worker_key := worker]> (_WORKERS w)) w)
  | Some self => (self, w)
  end.
End Construction.

(** [Worker.count()] *)
Definition count (w : World) : nat := size (_WORKERS w).


(** [prepare_job_execution(job)] *)
Definition prepare_job_execution (l : nat) (w : World) : World :=
  let w := World.set_status l JobStatus.STARTED w in
  match heap w !! l with
  | Some job => BaseRegistry.add StartedJobRegistry (origin job) (id job) w
  | None => w
  end.

(** [monitor_work_horse(job, queue)] *)
Definition monitor_work_horse (l : nat) (q : string) (w : World) : World :=
  let w := World.set_status l JobStatus.FAILED w in
  match heap w !! l with
  | Some job =>
      BaseRegistry.add FailedJobRegistry q (id job)
        (BaseRegistry.remove StartedJobRegistry q (id job) w)
  | None => w
  end.

Section Work.
(** What calling the target [f] with [args] and [kwargs] does. *)
Variable invoke : FuncId → list Value → gmap string Value → World → Outcome * World.

(** The body of the inner loop of [work], for the job behind [l].
    A reference held by the snapshot keeps its object, so the lookup
    finds it; the other case is there for totality. *)
Definition run_job (l : nat) (w : World) : Completion * World :=
  match heap w !! l with
  | None => (Returned, w)
  | Some job =>
      match func job with
      | Callable f =>
          match invoke f (args job) (kwargs job) w with
          | (Returns v, w) =>
              (Returned,
               World.set_status l JobStatus.FINISHED
                 (World.update_job l (Job.with_result v) w))
          | (Raises (OfException text), w) =>
              (Returned,
               World.set_status l JobStatus.FAILED
                 (World.update_job l (Job.with_exc_info (Some text)) w))
          | (Raises (OfBaseExceptionOnly text), w) => (Propagated text, w)
          end
      | NotCallable _ => (Returned, World.set_status l JobStatus.FINISHED w)
      end
  end.

(** [for job in snapshot: ...], with the jobs whose iteration began. *)
Fixpoint run_jobs (snapshot : list nat) (w : World)
    : Completion * list nat * World :=
  match snapshot with
  | [] => (Returned, [], w)
  | l :: rest =>
      match run_job l w with
      | (Returned, w) =>
          let '(c, done, w) := run_jobs rest w in (c, l :: done, w)
      | (Propagated text, w) => (Propagated text, [l], w)
      end
  end.

(** [for queue in self.queues: for job in list(queue.jobs): ...] *)
Fixpoint run_queues (qs : list string) (w : World)
    : Completion * list (string * list nat) * World :=
  match qs with
  | [] => (Returned, [], w)
  | q :: rest =>
      match run_jobs (Queue.jobs q w) w with
      | (Returned, done, w) =>
          let '(c, dones, w) := run_queues rest w in (c, (q, done) :: dones, w)
      | (Propagated text, done, w) => (Propagated text, [(q, done)], w)
      end
  end.

(** [work], called with the keywords [kwargs]: how it ended, the jobs it executed, queue by
    queue, and the world it leaves. *)
Definition work (self : Worker) (kwargs : gmap string Value) (w : World)
    : Completion * list (string * list nat) * World :=
  if negb (truthy (default (VBool false) (kwargs !! "burst")))
  then (Returned, [], w)
  else run_queues (queues self) w.
End Work.
End Worker.

(** [work(burst=True)] *)
Definition burst : gmap string Value := {["burst" := VBool true]}.

(** ** Statistics *)

Record QueueStatistics := mkQueueStatistics {
  stat_name : string;
  stat_jobs : nat;
  stat_index : nat;
  oldest_job_timestamp : string;
  scheduler_pid : string;
  stat_workers : nat;
  finished_jobs : nat;
  failed_jobs : nat;
  started_jobs : nat;
  deferred_jobs : nat;
  scheduled_jobs : nat;
  canceled_jobs : nat
}.

Record Statistics := mkStatistics {
  workers : nat;
  stat_queues : list QueueStatistics;
  jobs : nat
}.

(** [_get_queue_statistics(queue_name, queue_index)]; it goes through
    [get_queue], which may create the queue object. *)
Definition _get_queue_statistics (queue_name : string) (queue_index : nat)
    (w : World) : QueueStatistics * World :=
  let w := get_queue queue_name w in
  (mkQueueStatistics queue_name (Queue.count queue_name w) queue_index "" "" 0
     (BaseRegistry.len FinishedJobRegistry queue_name w)
     (BaseRegistry.len FailedJobRegistry queue_name w)
     (BaseRegistry.len StartedJobRegistry queue_name w)
     (BaseRegistry.len DeferredJobRegistry queue_name w)
     (BaseRegistry.len ScheduledJobRegistry queue_name w)
     (BaseRegistry.len CanceledJobRegistry queue_name w),
   w).

(** [netbox/django_rq/settings.py] *)
Definition QUEUES_LIST : list string := ["default"; "high"; "low"].
Definition QUEUES_MAP : gmap string nat :=
  <["default" := 0]> (<["high" := 1]> (<["low" := 2]> ∅)).

(** [[_get_queue_statistics(name, QUEUES_MAP.get(name, i)) for i, name in
    enumerate(names)]], [i] counting from [start]. *)
Fixpoint queues_data (start : nat) (names : list string) (w : World)
    : list QueueStatistics * World :=
  match names with
  | [] => ([], w)
  | name :: rest =>
      let '(s, w) := _get_queue_statistics name (default start (QUEUES_MAP !! name)) w in
      let '(ss, w) := queues_data (S start) rest w in
      (s :: ss, w)
  end.

(** [get_statistics()] of [netbox/django_rq/utils.py] *)
Definition get_statistics (w : World) : Statistics * World :=
  let '(qd, w) := queues_data 0 QUEUES_LIST w in
  (mkStatistics 1 qd (foldr (λ q n, stat_jobs q + n) 0 qd), w).

(** ** The job helpers of [core/utils.py] *)

(** [RQ_Job.fetch(job_id)]: the first of the queues default, high and low
    that holds the id; [None] stands for [NoSuchJobError]. *)
Definition RQ_Job_fetch (job_id : string) (w : World) : option nat * World :=
  let w1 := get_queue "default" w in
  match Queue.fetch_job "default" job_id w1 with
  | Some l => (Some l, w1)
  | None =>
      let w2 := get_queue "high" w1 in
      match Queue.fetch_job "high" job_id w2 with
      | Some l => (Some l, w2)
      | None =>
          let w3 := get_queue "low" w2 in
          (Queue.fetch_job "low" job_id w3, w3)
      end
  end.

(** [requeue_rq_job(job_id)] and [enqueue_rq_job(job_id)]; [false] stands for
    [Http404]. *)
Definition requeue_rq_job (job_id : string) (w : World) : bool * World :=
  match RQ_Job_fetch job_id w with
  | (Some l, w) => (true, World.set_status l "queued" w)
  | (None, w) => (false, w)
  end.

Definition enqueue_rq_job := requeue_rq_job.

(** [stop_rq_job(job_id)] *)
Definition stop_rq_job (job_id : string) (w : World) : bool * World :=
  match RQ_Job_fetch job_id w with
  | (Some l, w) => (true, World.set_status l "stopped" w)
  | (None, w) => (false, w)
  end.

(** [delete_rq_job(job_id)]: the id leaves [_jobs] of the first of the three
    queues that holds it; the durable ordering keeps its entry. *)
Definition delete_rq_job (job_id : string) (w : World) : bool * World :=
  match RQ_Job_fetch job_id w with
  | (Some _, w) =>
      let del q w := World.with_QUEUES (<[q := delete job_id (Queue._jobs q w)]> (_QUEUES w)) w in
      (true,
       if bool_decide (is_Some (Queue._jobs "default" w !! job_id)) then del "default" w
       else if bool_decide (is_Some (Queue._jobs "high" w !! job_id)) then del "high" w
       else if bool_decide (is_Some (Queue._jobs "low" w !! job_id)) then del "low" w
       else w)
  | (None, w) => (false, w)
  end.

(** [Job.exists(job_id)]: some queue of [_QUEUES] maps the id. *)
Definition Job_exists (job_id : string) (w : World) : bool :=
  existsb (λ qm : string * gmap string nat, bool_decide (is_Some (qm.2 !! job_id)))
          (map_to_list (_QUEUES w)).

(** [RQ_Job.exists(job_id)] of [core/utils.py]: [RQ_Job.fetch] does not
    raise. *)
Definition RQ_Job_exists (job_id : string) (w : World) : bool * World :=
  (bool_decide (is_Some (RQ_Job_fetch job_id w).1), (RQ_Job_fetch job_id w).2).

(** [get_jobs(queue, job_ids, registry)] of [netbox/django_rq/utils.py]: the
    jobs of the ids that the queue holds, in the order of [job_ids]; the
    body does not use [registry]. *)
Definition get_jobs (q : string) (job_ids : list string) (w : World) : list nat :=
  omap (λ job_id, Queue.fetch_job q job_id w) job_ids.

(** ** Predicates of the statements *)

(** The attributes [set_status] never assigns. *)
Definition same_payload (j j' : Job) : Prop :=
  id j' = id j ∧ origin j' = origin j ∧ created_at j' = created_at j
  ∧ result j' = result j ∧ exc_info j' = exc_info j ∧ func j' = func j
  ∧ args j' = args j ∧ kwargs j' = kwargs j ∧ scheduled_at j' = scheduled_at j.

(** The job id [enqueue] settles on: the one given when it is truthy, a fresh
    draw otherwise. *)
Definition chosen_id (uuid4_hex : nat → string) (job_id : option string) (w : World) : string :=
  match job_id with
  | Some s => if String.eqb s "" then uuid4_hex (entropy w) else s
  | None => uuid4_hex (entropy w)
  end.

(** No target shrinks the heap: an object that is referenced is not freed. *)
Definition keeps_objects
    (invoke : FuncId → list Value → gmap string Value → World → Outcome * World) : Prop :=
  ∀ f a k w, (length (heap w) ≤ length (heap (invoke f a k w).2))%nat.

Definition same_identity (j j' : Job) : Prop :=
  id j' = id j ∧ origin j' = origin j ∧ args j' = args j ∧ kwargs j' = kwargs j.

(** [w'] has the orderings and the id-to-job mappings of [w], and every job
    of [w] is still there with the same id, origin, args and kwargs. *)
Definition queues_untouched (w w' : World) : Prop :=
  _QUEUES w' = _QUEUES w
  ∧ deques w' = deques w
  ∧ ∀ l job, heap w !! l = Some job →
      ∃ job', heap w' !! l = Some job' ∧ same_identity job job'.

(** No target raises an object that is not an [Exception]. *)
Definition raises_only_exceptions
    (invoke : FuncId → list Value → gmap string Value → World → Outcome * World) : Prop :=
  ∀ f a k w text, (invoke f a k w).1 ≠ Raises (OfBaseExceptionOnly text).

(** The ids of the queue [q] refer to jobs of the heap. *)
Definition references_exist (q : string) (w : World) : Prop :=
  map_Forall (λ _ l, (l < length (heap w))%nat) (Queue._jobs q w).


(** The queue whose [_jobs] the helpers of [core/utils.py] find a job id in:
    the first of default, high and low that maps the id. *)
Definition first_holder (job_id : string) (w : World) : option string :=
  if bool_decide (is_Some (Queue.fetch_job "default" job_id w)) then Some "default"
  else if bool_decide (is_Some (Queue.fetch_job "high" job_id w)) then Some "high"
  else if bool_decide (is_Some (Queue.fetch_job "low" job_id w)) then Some "low"
  else None.

(** Worlds that differ by queue objects without jobs only. *)
Definition same_content (w w' : World) : Prop :=
  (∀ q, Queue._jobs q w' = Queue._jobs q w)
  ∧ heap w' = heap w ∧ deques w' = deques w ∧ indexes w' = indexes w
  ∧ clock w' = clock w.

(** What one entry of the statistics says about its queue in the world [w]. *)
Definition describes (w : World) (s : QueueStatistics) : Prop :=
  stat_jobs s = Queue.count (stat_name s) w
  ∧ finished_jobs s = BaseRegistry.len FinishedJobRegistry (stat_name s) w
  ∧ failed_jobs s = BaseRegistry.len FailedJobRegistry (stat_name s) w
  ∧ started_jobs s = BaseRegistry.len StartedJobRegistry (stat_name s) w
  ∧ deferred_jobs s = BaseRegistry.len DeferredJobRegistry (stat_name s) w
  ∧ scheduled_jobs s = BaseRegistry.len ScheduledJobRegistry (stat_name s) w
  ∧ canceled_jobs s = BaseRegistry.len CanceledJobRegistry (stat_name s) w
  ∧ stat_workers s = 0.

(** Every id that the mapping of a queue holds is an entry of the ordering
    of that queue and refers to an existing job that carries that id. *)
Definition consistent (w : World) : Prop :=
  ∀ q job_id l,
    Queue._jobs q w !! job_id = Some l →
    job_id ∈ Queue._deque q w ∧ ∃ job, heap w !! l = Some job ∧ id job = job_id.

(** No target changes the world. *)
Definition effect_free
    (invoke : FuncId → list Value → gmap string Value → World → Outcome * World) : Prop :=
  ∀ f a k w, (invoke f a k w).2 = w.

(** The job behind [l] has been run to its end: it is finished or failed and
    carries an end time. *)
Definition settled (l : nat) (w : World) : Prop :=
  ∃ job, heap w !! l = Some job
         ∧ (status job = JobStatus.FINISHED ∨ status job = JobStatus.FAILED)
         ∧ is_Some (ended_at job).

(** The loop body applied to every job of a snapshot in turn, and that done
    for the snapshot of every queue in turn, each snapshot taken when its
    queue is reached: no iteration is left out and none ends the pass. *)
Definition process_all
    (invoke : FuncId → list Value → gmap string Value → World → Outcome * World)
    (snapshot : list nat) (w : World) : World :=
  foldl (λ w0 l, (Worker.run_job invoke l w0).2) w snapshot.

Definition drain_all
    (invoke : FuncId → list Value → gmap string Value → World → Outcome * World)
    (qs : list string) (w : World) : World :=
  foldl (λ w0 q, process_all invoke (Queue.jobs q w0) w0) w qs.










(** The job behind [l] has been run to its end at a time from [lo] on and
    before [hi]: it is finished or failed and its end time is in that
    range. *)
Definition ended_within (l : nat) (lo hi : nat) (w : World) : Prop :=
  ∃ job t, heap w !! l = Some job
           ∧ (status job = JobStatus.FINISHED ∨ status job = JobStatus.FAILED)
           ∧ ended_at job = Some t ∧ (lo ≤ t < hi)%nat.

(** ** Scenarios *)

(** The supply of ids used in the scenarios below. *)
Definition sample_uuid4_hex (n : nat) : string := "uuid" ++ pretty n.

(** Targets without effect on the world: the three of the drain test, and
    any other name returns [None]. *)
Definition pure_targets (f : FuncId) (a : list Value) (k : gmap string Value)
    (w : World) : Outcome * World :=
  if String.eqb f "return_1" then (Returns (VInt 1), w)
  else if String.eqb f "raise_boom" then (Raises (OfException "boom"), w)
  else if String.eqb f "return_3" then (Returns (VInt 3), w)
  else (Returns VNone, w).

(** [get_worker('default')] in a fresh process. *)
Definition fresh : World := (Worker.get_worker sample_uuid4_hex "default" None World.initial).2.
Definition default_worker : Worker :=
  (Worker.get_worker sample_uuid4_hex "default" None World.initial).1.

(** [q.enqueue(f)] for each name of [fs] in turn, on the queue default. *)
Definition enqueue_all (fs : list FuncId) (w : World) : World :=
  foldl (λ w f, (Queue.enqueue sample_uuid4_hex "default" (Callable f) [] ∅ VNone None w).2) w fs.

(** The queue of the drain test: three jobs that return 1, raise, return 3. *)
Definition three_jobs : World := enqueue_all ["return_1"; "raise_boom"; "return_3"] fresh.

(** A target that looks at the first job of the heap, which is its own job in
    the scenario below, while it runs: it returns the status it sees, or a
    fixed text when the Started Registry of default holds the job's id. *)
Definition probing_targets (f : FuncId) (a : list Value) (k : gmap string Value)
    (w : World) : Outcome * World :=
  match heap w !! 0 with
  | Some job =>
      if BaseRegistry.contains StartedJobRegistry "default" (id job) w
      then (Returns (VStr "in the started registry"), w)
      else (Returns (VStr (status job)), w)
  | None => (Returns VNone, w)
  end.

(** Two workers, one job that returns and one that raises on default,
    drained. *)
Definition drained_one_of_two : World :=
  (Worker.work pure_targets default_worker burst
     (enqueue_all ["return_1"; "raise_boom"]
        (Worker.get_worker sample_uuid4_hex "high" None fresh).2)).2.

(** [get_queue('default').enqueue(None)] in the fresh process. *)
Definition one_not_callable : World :=
  (Queue.enqueue sample_uuid4_hex "default" (NotCallable VNone) [] ∅ VNone None fresh).2.

Definition the_not_callable_job : Job :=
  mkJob "uuid1" "default" "queued" 0 (Some 1) None None VNone None
        (NotCallable VNone) [] ∅ None.

Definition the_raising_job : Job :=
  mkJob "uuid2" "default" "queued" 2 (Some 3) None None VNone None
        (Callable "raise_boom") [] ∅ None.

(** Targets of which one calls [sys.exit(1)]. *)
Definition exiting_targets (f : FuncId) (a : list Value) (k : gmap string Value)
    (w : World) : Outcome * World :=
  if String.eqb f "sys_exit" then (Raises (OfBaseExceptionOnly "1"), w)
  else pure_targets f a k w.

(** Targets of which one enqueues a further job to the queue default. *)
Definition enqueuing_targets (f : FuncId) (a : list Value) (k : gmap string Value)
    (w : World) : Outcome * World :=
  if String.eqb f "enqueue_more"
  then let '(l, w) :=
         Queue.enqueue sample_uuid4_hex "default" (Callable "return_3") [] ∅ VNone None w in
       (Returns (VRef l), w)
  else pure_targets f a k w.

(** Job A enqueues job D when it runs; job B returns 1. *)
Definition a_then_b : World := enqueue_all ["enqueue_more"; "return_1"] fresh.


(** Three jobs enqueued, under fresh ids, to a queue that holds one job. *)
Definition one_job : World := enqueue_all ["return_1"] fresh.

(** A job is enqueued under the id x and deleted with [delete_rq_job], which
    leaves its entry in the ordering; then A is enqueued under the id a and B
    under the id x. *)
Definition reused_id : World :=
  let enq f job_id w :=
    (Queue.enqueue sample_uuid4_hex "default" (Callable f) [] ∅ VNone (Some job_id) w).2 in
  enq "return_3" "x" (enq "return_1" "a" (delete_rq_job "x" (enq "return_1" "x" fresh)).2).

(** A job enqueued under the id r1 to a queue named reports. *)
Definition in_another_queue : World :=
  (Queue.enqueue sample_uuid4_hex "reports" (Callable "return_1") [] ∅ VNone (Some "r1")
     (get_queue "reports" fresh)).2.

(** The queue of the drain test after [stop_rq_job] on its second job. *)
Definition one_stopped : World := (stop_rq_job "uuid2" three_jobs).2.

(** A target that raises as long as the clock is before 3 and returns 7 from
    then on. *)
Definition flaky_targets (f : FuncId) (a : list Value) (k : gmap string Value)
    (w : World) : Outcome * World :=
  if (clock w <? 3)%nat then (Raises (OfException "too early"), w)
  else (Returns (VInt 7), w).

(** One job with that target, drained once: it has failed. *)
Definition failed_once : World :=
  (Worker.work flaky_targets default_worker burst (enqueue_all ["flaky"] fresh)).2.

(** The job of [failed_once]. *)
Definition the_failed_job : Job :=
  mkJob "uuid1" "default" "failed" 0 (Some 1) None (Some 2) VNone (Some "too early")
        (Callable "flaky") [] ∅ None.






(** * Properties *)

(** ** Job.set_status *)

Lemma set_status_status s now j : status (Job.set_status s now j) = s.
Proof.
  unfold Job.set_status.
  destruct (String.eqb s JobStatus.QUEUED); [reflexivity|].
  destruct (String.eqb s JobStatus.STARTED); [reflexivity|].
  destruct (JobStatus.terminal s); reflexivity.
Qed.

Lemma set_status_payload s now j : same_payload j (Job.set_status s now j).
Proof.
  unfold Job.set_status, same_payload.
  destruct (String.eqb s JobStatus.QUEUED); [simpl; tauto|].
  destruct (String.eqb s JobStatus.STARTED); [simpl; tauto|].
  destruct (JobStatus.terminal s); simpl; tauto.
Qed.

Lemma set_status_enqueued_at s now j :
  enqueued_at (Job.set_status s now j)
  = if String.eqb s JobStatus.QUEUED then Some now else enqueued_at j.
Proof.
  unfold Job.set_status.
  destruct (String.eqb s JobStatus.QUEUED); [reflexivity|].
  destruct (String.eqb s JobStatus.STARTED); [reflexivity|].
  destruct (JobStatus.terminal s); reflexivity.
Qed.

Lemma set_status_started_at s now j :
  started_at (Job.set_status s now j)
  = if String.eqb s JobStatus.STARTED then Some now else started_at j.
Proof.
  unfold Job.set_status.
  destruct (String.eqb s JobStatus.QUEUED) eqn:Hq.
  - apply String.eqb_eq in Hq. subst s. reflexivity.
  - destruct (String.eqb s JobStatus.STARTED); [reflexivity|].
    destruct (JobStatus.terminal s); reflexivity.
Qed.

Lemma terminal_not_queued_started s :
  JobStatus.terminal s = true →
  String.eqb s JobStatus.QUEUED = false ∧ String.eqb s JobStatus.STARTED = false.
Proof.
  unfold JobStatus.terminal. intros H.
  repeat (apply orb_true_iff in H; destruct H as [H|H]);
    apply String.eqb_eq in H; subst s; split; reflexivity.
Qed.

Lemma set_status_ended_at s now j :
  ended_at (Job.set_status s now j)
  = if JobStatus.terminal s then Some now else ended_at j.
Proof.
  unfold Job.set_status.
  destruct (JobStatus.terminal s) eqn:Ht.
  - destruct (terminal_not_queued_started s Ht) as [-> ->]. reflexivity.
  - destruct (String.eqb s JobStatus.QUEUED); [reflexivity|].
    destruct (String.eqb s JobStatus.STARTED); reflexivity.
Qed.

(** C4, as the code has it.  [set_status] has no guard on the current
    status: on every job, a terminal one included, it records the requested
    status and stamps the time attribute that goes with it ([enqueued_at] for
    queued, [started_at] for started, [ended_at] for the four terminal
    statuses); it assigns nothing else, so the result, the error text and the
    other time attributes stay as they were. *)
Theorem C4_set_status_is_unguarded (s : string) (now : nat) (j : Job) :
  let j' := Job.set_status s now j in
  status j' = s
  ∧ result j' = result j
  ∧ exc_info j' = exc_info j
  ∧ created_at j' = created_at j
  ∧ enqueued_at j' = (if String.eqb s JobStatus.QUEUED then Some now else enqueued_at j)
  ∧ started_at j' = (if String.eqb s JobStatus.STARTED then Some now else started_at j)
  ∧ ended_at j' = (if JobStatus.terminal s then Some now else ended_at j).
Proof.
  cbv zeta.
  pose proof (set_status_payload s now j) as (_ & _ & Hc & Hr & He & _).
  repeat split; auto using set_status_status, set_status_enqueued_at,
    set_status_started_at, set_status_ended_at.
Qed.

(** C4 as stated fails: a job that finished at time 5 is put back to queued
    at time 9 by the call that [requeue_rq_job] makes; the terminal status is
    lost and [enqueued_at] is rewritten. *)
Lemma C4_terminal_job_is_overwritten :
  let finished := Job.set_status JobStatus.FINISHED 5 (Job.init "a" "default" (Callable "f") 0) in
  let after := Job.set_status JobStatus.QUEUED 9 finished in
  JobStatus.terminal (status finished) = true
  ∧ status after = JobStatus.QUEUED
  ∧ status after ≠ status finished
  ∧ enqueued_at finished = None
  ∧ enqueued_at after = Some 9.
Proof. cbv zeta. repeat split; try reflexivity. discriminate. Qed.

(** ** Queue.enqueue and Queue.enqueue_at *)

Lemma _jobs_insert q m w :
  Queue._jobs q (World.with_QUEUES (<[q := m]> (_QUEUES w)) w) = m.
Proof. unfold Queue._jobs. simpl. by rewrite lookup_insert_eq. Qed.

Lemma _deque_insert q d w :
  Queue._deque q (World.with_deques (<[q := d]> (deques w)) w) = d.
Proof. unfold Queue._deque. simpl. by rewrite lookup_insert_eq. Qed.

(** What one [enqueue] does to the world. *)
Lemma enqueue_effect uuid4_hex q target a kw depends_on job_id w :
  ∃ job w',
    Queue.enqueue uuid4_hex q target a kw depends_on job_id w = (length (heap w), w')
    ∧ heap w' = (heap w ++ [job])%list
    ∧ id job = chosen_id uuid4_hex job_id w
    ∧ origin job = (if String.eqb q "" then "default" else q)
    ∧ status job = (if truthy depends_on then JobStatus.DEFERRED else JobStatus.QUEUED)
    ∧ func job = target ∧ args job = a ∧ kwargs job = kw
    ∧ result job = VNone ∧ exc_info job = None ∧ scheduled_at job = None
    ∧ _QUEUES w' = <[q := <[id job := length (heap w)]> (Queue._jobs q w)]> (_QUEUES w)
    ∧ deques w' = <[q := (Queue._deque q w ++ [id job])%list]> (deques w)
    ∧ indexes w' = indexes w
    ∧ _WORKERS w' = _WORKERS w.
Proof.
  unfold Queue.enqueue, chosen_id.
  set (pick := match job_id with
               | Some s => if String.eqb s "" then Queue.uuid4 uuid4_hex w else (s, w)
               | None => Queue.uuid4 uuid4_hex w
               end).
  assert (Hpick : ∃ e, pick = (chosen_id uuid4_hex job_id w, World.with_entropy e w)).
  { unfold pick, chosen_id, Queue.uuid4. destruct job_id as [s|].
    - destruct (String.eqb s ""); eexists; [reflexivity|].
      instantiate (1 := entropy w). by destruct w.
    - eexists; reflexivity. }
  destruct Hpick as [e ->]. unfold chosen_id. simpl.
  eexists _, _. split; [reflexivity|]. simpl.
  pose proof (set_status_payload
    (if truthy depends_on then JobStatus.DEFERRED else JobStatus.QUEUED)
    (S (clock w))
    (Job.with_args a kw
       (Job.init (chosen_id uuid4_hex job_id w) q target (clock w))))
    as (Hid & Ho & _ & Hr & He & Hf & Ha & Hk & Hs).
  unfold chosen_id in *.
  rewrite Hid, Ho, Hr, He, Hf, Ha, Hk, Hs, set_status_status. simpl.
  repeat split; reflexivity.
Qed.

Lemma enqueue_at_effect uuid4_hex q schedule_at target a kw depends_on job_id w :
  ∃ job w',
    Queue.enqueue_at uuid4_hex q schedule_at target a kw depends_on job_id w
      = (length (heap w), w')
    ∧ heap w' = (heap w ++ [job])%list
    ∧ id job = chosen_id uuid4_hex job_id w
    ∧ status job = (if truthy depends_on then JobStatus.DEFERRED else JobStatus.QUEUED)
    ∧ scheduled_at job = Some schedule_at
    ∧ _QUEUES w' = <[q := <[id job := length (heap w)]> (Queue._jobs q w)]> (_QUEUES w)
    ∧ deques w' = <[q := (Queue._deque q w ++ [id job])%list]> (deques w)
    ∧ indexes w'
      = <[BaseRegistry.registry_key ScheduledJobRegistry q
          := {[id job]} ∪ BaseRegistry.index ScheduledJobRegistry q w]> (indexes w).
Proof.
  destruct (enqueue_effect uuid4_hex q target a kw depends_on job_id w)
    as (job & w1 & Henq & Hheap & Hid & _ & Hst & _ & _ & _ & _ & _ & _ & HQ & HD & HI & _).
  unfold Queue.enqueue_at. rewrite Henq.
  assert (Hl : alter (Job.with_scheduled_at (Some schedule_at)) (length (heap w)) (heap w1)
               = (heap w ++ [Job.with_scheduled_at (Some schedule_at) job])%list).
  { rewrite Hheap. rewrite alter_app_r_alt by lia.
    by rewrite Nat.sub_diag. }
  unfold World.update_job. simpl. rewrite Hl.
  rewrite lookup_app_r by lia. rewrite Nat.sub_diag. simpl.
  eexists _, _. split; [reflexivity|].
  simpl. unfold BaseRegistry.index. simpl. rewrite HI.
  repeat split; auto.
Qed.

Lemma lookup_new_job (h : list Job) (job : Job) : (h ++ [job])%list !! length h = Some job.
Proof. rewrite lookup_app_r by lia. by rewrite Nat.sub_diag. Qed.

(** C3, what the code does.  [enqueue] gives the new job the status deferred
    when [depends_on] is truthy and queued otherwise.  [enqueue_at] gives it
    the very same status, never scheduled, although it records the run time
    and adds the id to the Scheduled Registry of the queue. *)
Theorem C3_enqueue_at_never_sets_scheduled
    (uuid4_hex : nat → string) (q : string) (schedule_at : Value)
    (target : Target) (a : list Value) (kw : gmap string Value)
    (depends_on : Value) (job_id : option string) (w : World) :
  (∃ job w',
      Queue.enqueue uuid4_hex q target a kw depends_on job_id w = (length (heap w), w')
      ∧ heap w' !! length (heap w) = Some job
      ∧ status job = (if truthy depends_on then JobStatus.DEFERRED else JobStatus.QUEUED))
  ∧ (∃ job w',
      Queue.enqueue_at uuid4_hex q schedule_at target a kw depends_on job_id w
        = (length (heap w), w')
      ∧ heap w' !! length (heap w) = Some job
      ∧ status job = (if truthy depends_on then JobStatus.DEFERRED else JobStatus.QUEUED)
      ∧ status job ≠ JobStatus.SCHEDULED
      ∧ scheduled_at job = Some schedule_at
      ∧ BaseRegistry.contains ScheduledJobRegistry q (id job) w' = true).
Proof.
  split.
  - destruct (enqueue_effect uuid4_hex q target a kw depends_on job_id w)
      as (job & w' & Henq & Hheap & _ & _ & Hst & _).
    exists job, w'. rewrite Hheap. auto using lookup_new_job.
  - destruct (enqueue_at_effect uuid4_hex q schedule_at target a kw depends_on job_id w)
      as (job & w' & Henq & Hheap & _ & Hst & Hsched & _ & _ & HI).
    exists job, w'. rewrite Hheap. repeat split; auto using lookup_new_job.
    + rewrite Hst. destruct (truthy depends_on); discriminate.
    + unfold BaseRegistry.contains, BaseRegistry.index. rewrite HI, lookup_insert_eq.
      apply bool_decide_eq_true. set_solver.
Qed.

(** [get_queue('default').enqueue_at(5, f)] in a fresh process: the job is
    queued, not scheduled, and sits in the Scheduled Registry. *)
Example enqueue_at_in_a_fresh_process :
  let '(l, w) :=
    Queue.enqueue_at sample_uuid4_hex "default" (VInt 5) (Callable "f") [] ∅ VNone None
      (get_queue "default" World.initial) in
  (status <$> heap w !! l) = Some "queued"
  ∧ (Job.is_scheduled <$> heap w !! l) = Some false
  ∧ BaseRegistry.get_job_ids ScheduledJobRegistry "default" w = ["uuid0"].
Proof. vm_compute. auto. Qed.

(** ** What a drain pass writes *)

Lemma heap_update_job l g w : heap (World.update_job l g w) = alter g l (heap w).
Proof. reflexivity. Qed.

Lemma heap_set_status l s w :
  heap (World.set_status l s w) = alter (Job.set_status s (clock w)) l (heap w).
Proof. reflexivity. Qed.

Lemma work_burst invoke self w :
  Worker.work invoke self burst w = Worker.run_queues invoke (queues self) w.
Proof. reflexivity. Qed.

(** The worker's own steps are assignments to attributes of one job and
    reads of the clock.  A relation between worlds that holds across those,
    and across every target call, holds across a whole drain. *)
Section DrainPreserves.
Variable invoke : FuncId → list Value → gmap string Value → World → Outcome * World.
Variable R : World → World → Prop.
Hypothesis R_refl : ∀ w, R w w.
Hypothesis R_trans : ∀ w1 w2 w3, R w1 w2 → R w2 w3 → R w1 w3.
Hypothesis R_invoke : ∀ f a k w, R w (invoke f a k w).2.
Hypothesis R_result : ∀ l v w, R w (World.update_job l (Job.with_result v) w).
Hypothesis R_exc_info : ∀ l e w, R w (World.update_job l (Job.with_exc_info e) w).
Hypothesis R_set_status : ∀ l s w, R w (World.set_status l s w).

Lemma run_job_preserves l w : R w (Worker.run_job invoke l w).2.
Proof using All.
  unfold Worker.run_job.
  destruct (heap w !! l) as [job|]; [|apply R_refl].
  destruct (func job) as [f|v]; [|apply R_set_status].
  pose proof (R_invoke f (args job) (kwargs job) w) as Hi.
  destruct (invoke f (args job) (kwargs job) w) as [[v|[text|text]] w1]; simpl in *.
  - eapply R_trans; [exact Hi|]. eapply R_trans; [apply R_result|apply R_set_status].
  - eapply R_trans; [exact Hi|]. eapply R_trans; [apply R_exc_info|apply R_set_status].
  - exact Hi.
Qed.

Lemma run_jobs_preserves snapshot w : R w (Worker.run_jobs invoke snapshot w).2.
Proof using All.
  revert w. induction snapshot as [|l rest IH]; intros w; simpl; [apply R_refl|].
  pose proof (run_job_preserves l w) as Hl.
  destruct (Worker.run_job invoke l w) as [[|text] w1]; simpl in *; [|exact Hl].
  specialize (IH w1).
  destruct (Worker.run_jobs invoke rest w1) as [[c done] w2]; simpl in *.
  eapply R_trans; eassumption.
Qed.

Lemma run_queues_preserves qs w : R w (Worker.run_queues invoke qs w).2.
Proof using All.
  revert w. induction qs as [|q rest IH]; intros w; simpl; [apply R_refl|].
  pose proof (run_jobs_preserves (Queue.jobs q w) w) as Hq.
  destruct (Worker.run_jobs invoke (Queue.jobs q w) w) as [[[|text] done] w1];
    simpl in *; [|exact Hq].
  specialize (IH w1).
  destruct (Worker.run_queues invoke rest w1) as [[c dones] w2]; simpl in *.
  eapply R_trans; eassumption.
Qed.

Lemma work_preserves self kwargs w : R w (Worker.work invoke self kwargs w).2.
Proof using All.
  unfold Worker.work.
  destruct (negb _); [apply R_refl|apply run_queues_preserves].
Qed.
End DrainPreserves.

(** The drain never touches a registry: when no target does, the indexes
    after [work] are those before it. *)
Lemma work_leaves_indexes invoke self kwargs w :
  (∀ f a k w0, indexes (invoke f a k w0).2 = indexes w0) →
  indexes (Worker.work invoke self kwargs w).2 = indexes w.
Proof.
  intros Hinv.
  apply (work_preserves invoke (λ w1 w2, indexes w2 = indexes w1)); auto; congruence.
Qed.

Lemma run_jobs_keeps_objects invoke snapshot w :
  keeps_objects invoke →
  (length (heap w) ≤ length (heap (Worker.run_jobs invoke snapshot w).2))%nat.
Proof.
  intros Hk.
  apply (run_jobs_preserves invoke (λ w1 w2, (length (heap w1) ≤ length (heap w2))%nat)); auto.
  - intros; lia.
  - intros; rewrite heap_update_job, length_alter; lia.
  - intros; rewrite heap_update_job, length_alter; lia.
  - intros; rewrite heap_set_status, length_alter; lia.
Qed.

(** ** The drain removes nothing from a queue (C10) *)

Lemma queues_untouched_refl w : queues_untouched w w.
Proof. repeat split; auto. intros l job H. exists job. by repeat split. Qed.

Lemma queues_untouched_trans w1 w2 w3 :
  queues_untouched w1 w2 → queues_untouched w2 w3 → queues_untouched w1 w3.
Proof.
  intros (HQ1 & HD1 & H1) (HQ2 & HD2 & H2). repeat split; try congruence.
  intros l job Hl.
  destruct (H1 l job Hl) as (job1 & Hl1 & I1 & I2 & I3 & I4).
  destruct (H2 l job1 Hl1) as (job2 & Hl2 & J1 & J2 & J3 & J4).
  exists job2. repeat split; congruence.
Qed.

Lemma queues_untouched_update_job l g w :
  (∀ j, same_identity j (g j)) → queues_untouched w (World.update_job l g w).
Proof.
  intros Hg. repeat split; auto. intros l' job Hl'.
  rewrite heap_update_job. destruct (decide (l = l')) as [->|Hne].
  - rewrite list_lookup_alter_eq, Hl'. simpl. eauto.
  - rewrite list_lookup_alter_ne by done. exists job. by repeat split.
Qed.

Lemma queues_untouched_set_status l s w : queues_untouched w (World.set_status l s w).
Proof.
  repeat split; auto. intros l' job Hl'.
  rewrite heap_set_status. destruct (decide (l = l')) as [->|Hne].
  - rewrite list_lookup_alter_eq, Hl'. simpl. eexists; split; [reflexivity|].
    pose proof (set_status_payload s (clock w) job) as (? & ? & _ & _ & _ & _ & ? & ? & _).
    by repeat split.
  - rewrite list_lookup_alter_ne by done. exists job. by repeat split.
Qed.







(** A relation between worlds that holds across the worker's own steps and
    across the target calls that a pass makes holds across the pass. *)
Section DrainPreservesCalls.
Variable invoke : FuncId → list Value → gmap string Value → World → Outcome * World.
Variable R : World → World → Prop.
Hypothesis R_refl : ∀ w, R w w.
Hypothesis R_trans : ∀ w1 w2 w3, R w1 w2 → R w2 w3 → R w1 w3.
Hypothesis R_result : ∀ l v w, R w (World.update_job l (Job.with_result v) w).
Hypothesis R_exc_info : ∀ l e w, R w (World.update_job l (Job.with_exc_info e) w).
Hypothesis R_set_status : ∀ l s w, R w (World.set_status l s w).



End DrainPreservesCalls.




(** ** The loop body, case by case *)

Lemma run_job_not_callable invoke l w job v :
  heap w !! l = Some job → func job = NotCallable v →
  Worker.run_job invoke l w = (Returned, World.set_status l JobStatus.FINISHED w).
Proof. intros Hl Hf. unfold Worker.run_job. by rewrite Hl, Hf. Qed.

Lemma run_job_returns invoke l w job f v w1 :
  heap w !! l = Some job → func job = Callable f →
  invoke f (args job) (kwargs job) w = (Returns v, w1) →
  Worker.run_job invoke l w
  = (Returned, World.set_status l JobStatus.FINISHED
                 (World.update_job l (Job.with_result v) w1)).
Proof. intros Hl Hf Hi. unfold Worker.run_job. by rewrite Hl, Hf, Hi. Qed.

Lemma run_job_raises invoke l w job f text w1 :
  heap w !! l = Some job → func job = Callable f →
  invoke f (args job) (kwargs job) w = (Raises (OfException text), w1) →
  Worker.run_job invoke l w
  = (Returned, World.set_status l JobStatus.FAILED
                 (World.update_job l (Job.with_exc_info (Some text)) w1)).
Proof. intros Hl Hf Hi. unfold Worker.run_job. by rewrite Hl, Hf, Hi. Qed.

Lemma run_job_propagates invoke l w job f text w1 :
  heap w !! l = Some job → func job = Callable f →
  invoke f (args job) (kwargs job) w = (Raises (OfBaseExceptionOnly text), w1) →
  Worker.run_job invoke l w = (Propagated text, w1).
Proof. intros Hl Hf Hi. unfold Worker.run_job. by rewrite Hl, Hf, Hi. Qed.

(** The job behind [l] after [job.x = ...; job.set_status(s)]. *)
Lemma lookup_after_write l g s w job :
  heap w !! l = Some job →
  heap (World.set_status l s (World.update_job l g w)) !! l
  = Some (Job.set_status s (clock w) (g job)).
Proof.
  intros Hl. rewrite heap_set_status, heap_update_job.
  rewrite !list_lookup_alter_eq, Hl. reflexivity.
Qed.

(** ** The targets of the scenarios *)

Lemma pure_targets_world f a k w : (pure_targets f a k w).2 = w.
Proof. unfold pure_targets. repeat case_match; reflexivity. Qed.

Lemma pure_targets_untouched f a k w : queues_untouched w (pure_targets f a k w).2.
Proof. rewrite pure_targets_world. apply queues_untouched_refl. Qed.




(** ** The drain test (C1) *)

(** C1 on the code.  The queue default holds three jobs whose targets return
    1, raise [Exception('boom')] and return 3; its worker runs
    [work(burst=True)].  The three jobs end finished with result 1, failed
    with error text boom, finished with result 3, and the Started Registry is
    empty; but the Failed Registry is empty too: the drain sets the status
    failed and adds the id to no registry. *)
Theorem C1_drain_test_on_the_code :
  let '(c, executed, w) := Worker.work pure_targets default_worker burst three_jobs in
  c = Returned
  ∧ executed = [("default", [0; 1; 2])]
  ∧ ((λ j, (id j, status j, result j, exc_info j)) <$> heap w)
    = [("uuid1", "finished", VInt 1, None);
       ("uuid2", "failed", VNone, Some "boom");
       ("uuid3", "finished", VInt 3, None)]
  ∧ BaseRegistry.get_job_ids StartedJobRegistry "default" w = []
  ∧ BaseRegistry.contains FailedJobRegistry "default" "uuid2" w = false
  ∧ BaseRegistry.get_job_ids FailedJobRegistry "default" w = [].
Proof. vm_compute. repeat split; reflexivity. Qed.

(** The sibling path of the worker that marks a job failed does keep the
    registries: after [monitor_work_horse(job, queue)] on the second job, the
    Failed Registry holds its id. *)
Example monitor_work_horse_fills_the_failed_registry :
  let w := Worker.monitor_work_horse 1 "default" three_jobs in
  (status <$> heap w !! 1) = Some "failed"
  ∧ BaseRegistry.contains FailedJobRegistry "default" "uuid2" w = true.
Proof. vm_compute. split; reflexivity. Qed.

(** ** Status transitions and registries during a drain (C2) *)

(** C2 on the code.  One job is enqueued to default and drained.  While its
    target runs the job is still queued and the Started Registry does not hold
    its id; after the drain the job is finished, was never stamped as started,
    and no registry holds its id: the two transitions the drain makes are
    paired with no registry update at all. *)
Theorem C2_drain_pairs_no_registry_update :
  let '(_, executed, w) :=
    Worker.work probing_targets default_worker burst (enqueue_all ["probe"] fresh) in
  executed = [("default", [0])]
  ∧ (result <$> heap w !! 0) = Some (VStr "queued")
  ∧ (status <$> heap w !! 0) = Some "finished"
  ∧ (started_at <$> heap w !! 0) = Some None
  ∧ BaseRegistry.get_job_ids StartedJobRegistry "default" w = []
  ∧ BaseRegistry.get_job_ids FinishedJobRegistry "default" w = []
  ∧ indexes w = ∅.
Proof. vm_compute. repeat split; reflexivity. Qed.

(** The sibling path [prepare_job_execution] does what the drain leaves out:
    status started, [started_at] stamped, id in the Started Registry. *)
Example prepare_job_execution_pairs_the_registry :
  let w := Worker.prepare_job_execution 0 (enqueue_all ["probe"] fresh) in
  (status <$> heap w !! 0) = Some "started"
  ∧ (started_at <$> heap w !! 0) = Some (Some 2)
  ∧ BaseRegistry.get_job_ids StartedJobRegistry "default" w = ["uuid1"].
Proof. vm_compute. repeat split; reflexivity. Qed.

(** ** Statistics (C5) *)

Lemma get_statistics_workers w : workers (get_statistics w).1 = 1.
Proof.
  unfold get_statistics.
  destruct (queues_data 0 QUEUES_LIST w) as [qd w']. reflexivity.
Qed.

(** The registry counts of a queue are the same after a drain as before it,
    whenever the targets themselves touch no registry. *)
Lemma statistics_blind_to_the_drain invoke self kwargs name index w :
  (∀ f a k w0, indexes (invoke f a k w0).2 = indexes w0) →
  let before := (_get_queue_statistics name index w).1 in
  let after := (_get_queue_statistics name index (Worker.work invoke self kwargs w).2).1 in
  finished_jobs after = finished_jobs before
  ∧ failed_jobs after = failed_jobs before
  ∧ started_jobs after = started_jobs before.
Proof.
  intros Hinv. pose proof (work_leaves_indexes invoke self kwargs w Hinv) as HI.
  assert (Hlen : ∀ c w1 w2, indexes w1 = indexes w2 →
            BaseRegistry.len c name (get_queue name w1)
            = BaseRegistry.len c name (get_queue name w2)).
  { intros c w1 w2 H. unfold BaseRegistry.len, BaseRegistry.index, get_queue.
    destruct (_QUEUES w1 !! name), (_QUEUES w2 !! name); simpl; by rewrite H. }
  simpl. auto.
Qed.

(** C5 on the code.  After a drain of N = 2 jobs with M = 1 success and one
    failure, the statistics report 2 jobs for default but 0 finished and 0
    failed jobs, since the drain fills no registry; and they report 1 worker
    while the process has 2, since the field is the constant 1. *)
Theorem C5_statistics_after_a_drain :
  let stats := (get_statistics drained_one_of_two).1 in
  ((λ j, status j) <$> heap drained_one_of_two) = ["finished"; "failed"]
  ∧ ((λ s, (stat_name s, stat_jobs s, finished_jobs s, failed_jobs s)) <$> stat_queues stats)
    = [("default", 2, 0, 0); ("high", 0, 0, 0); ("low", 0, 0, 0)]
  ∧ workers stats = 1
  ∧ Worker.count drained_one_of_two = 2.
Proof. vm_compute. repeat split; reflexivity. Qed.

(** The same through the helpers: after the drain test the second job is
    failed; [requeue_rq_job] puts it back to queued, with the old error text
    and the old [ended_at] still on it. *)
Example requeue_of_a_failed_job :
  let drained := (Worker.work pure_targets default_worker burst three_jobs).2 in
  let '(found, w) := requeue_rq_job "uuid2" drained in
  found = true
  ∧ ((λ j, (status j, exc_info j, ended_at j)) <$> heap drained !! 1)
    = Some ("failed", Some "boom", Some 7)
  ∧ ((λ j, (status j, exc_info j, ended_at j, enqueued_at j)) <$> heap w !! 1)
    = Some ("queued", Some "boom", Some 7, Some 9).
Proof. vm_compute. repeat split; reflexivity. Qed.

(** ** A target that is not callable (C6) *)

(** C6, as the code has it.  When the target of a drained job is not
    callable, the loop body calls nothing (its outcome does not depend on what
    the targets do) and leaves result and error text as they were, but it does
    not skip the job: it marks it finished and stamps [ended_at]. *)
Theorem C6_not_callable_is_marked_finished
    (invoke : FuncId → list Value → gmap string Value → World → Outcome * World)
    (l : nat) (w : World) (job : Job) (v : Value) :
  heap w !! l = Some job →
  func job = NotCallable v →
  ∃ job',
    Worker.run_job invoke l w = (Returned, World.set_status l JobStatus.FINISHED w)
    ∧ heap (World.set_status l JobStatus.FINISHED w) !! l = Some job'
    ∧ status job' = JobStatus.FINISHED
    ∧ ended_at job' = Some (clock w)
    ∧ result job' = result job
    ∧ exc_info job' = exc_info job.
Proof.
  intros Hl Hf. exists (Job.set_status JobStatus.FINISHED (clock w) job).
  split; [by eapply run_job_not_callable|].
  split; [rewrite heap_set_status, list_lookup_alter_eq, Hl; reflexivity|].
  repeat split; reflexivity.
Qed.

Lemma C6_not_callable_is_marked_finished_witness :
  heap one_not_callable !! 0 = Some the_not_callable_job
  ∧ func the_not_callable_job = NotCallable VNone
  ∧ ∃ job',
      Worker.run_job pure_targets 0 one_not_callable
      = (Returned, World.set_status 0 JobStatus.FINISHED one_not_callable)
      ∧ heap (World.set_status 0 JobStatus.FINISHED one_not_callable) !! 0 = Some job'
      ∧ status job' = JobStatus.FINISHED
      ∧ ended_at job' = Some (clock one_not_callable)
      ∧ result job' = result the_not_callable_job
      ∧ exc_info job' = exc_info the_not_callable_job.
Proof.
  split; [vm_compute; reflexivity|].
  split; [reflexivity|].
  apply (C6_not_callable_is_marked_finished pure_targets 0 one_not_callable
           the_not_callable_job VNone); vm_compute; reflexivity.
Defined.

(** C6 as stated fails on that queue: the job whose target is [None] was queued
    before the drain and is finished, with [ended_at] set, after it. *)
Lemma C6_not_callable_job_is_mutated :
  let w := (Worker.work pure_targets default_worker burst one_not_callable).2 in
  (status <$> heap one_not_callable !! 0) = Some "queued"
  ∧ (ended_at <$> heap one_not_callable !! 0) = Some None
  ∧ (status <$> heap w !! 0) = Some "finished"
  ∧ (ended_at <$> heap w !! 0) = Some (Some 2).
Proof. vm_compute. repeat split; reflexivity. Qed.

(** ** A target that raises (C7) *)

Lemma run_job_returned invoke l w :
  raises_only_exceptions invoke → (Worker.run_job invoke l w).1 = Returned.
Proof.
  intros Hex. unfold Worker.run_job.
  destruct (heap w !! l) as [job|]; [|reflexivity].
  destruct (func job) as [f|v]; [|reflexivity].
  pose proof (Hex f (args job) (kwargs job) w) as Hf.
  destruct (invoke f (args job) (kwargs job) w) as [[v|[text|text]] w1];
    try reflexivity.
  exfalso. by apply (Hf text).
Qed.

Lemma run_jobs_all invoke snapshot w :
  raises_only_exceptions invoke →
  ∃ w', Worker.run_jobs invoke snapshot w = (Returned, snapshot, w').
Proof.
  intros Hex. revert w. induction snapshot as [|l rest IH]; intros w; simpl.
  - by exists w.
  - pose proof (run_job_returned invoke l w Hex) as Hl.
    destruct (Worker.run_job invoke l w) as [c w1]. simpl in Hl. subst c.
    destruct (IH w1) as [w2 ->]. by exists w2.
Qed.

Lemma run_queues_all invoke qs w :
  raises_only_exceptions invoke →
  ∃ executed w',
    Worker.run_queues invoke qs w = (Returned, executed, w') ∧ executed.*1 = qs.
Proof.
  intros Hex. revert w. induction qs as [|q rest IH]; intros w; simpl.
  - by exists [], w.
  - destruct (run_jobs_all invoke (Queue.jobs q w) w Hex) as [w1 ->].
    destruct (IH w1) as (executed & w2 & -> & Hqs).
    exists ((q, Queue.jobs q w) :: executed), w2. split; [reflexivity|].
    rewrite fmap_cons. simpl. by f_equal.
Qed.

(** The loop goes on after an iteration that returned: the pass over
    [l :: rest] is the iteration for [l] followed by the pass over [rest]. *)
Lemma run_jobs_cons invoke l rest w w2 :
  Worker.run_job invoke l w = (Returned, w2) →
  Worker.run_jobs invoke (l :: rest) w
  = ((Worker.run_jobs invoke rest w2).1.1,
     l :: (Worker.run_jobs invoke rest w2).1.2,
     (Worker.run_jobs invoke rest w2).2).
Proof.
  intros H. simpl. rewrite H. by destruct (Worker.run_jobs invoke rest w2) as [[c d] w'].
Qed.

Lemma run_jobs_app invoke pre post w :
  (Worker.run_jobs invoke pre w).1.1 = Returned →
  Worker.run_jobs invoke (pre ++ post) w
  = ((Worker.run_jobs invoke post (Worker.run_jobs invoke pre w).2).1.1,
     (pre ++ (Worker.run_jobs invoke post (Worker.run_jobs invoke pre w).2).1.2)%list,
     (Worker.run_jobs invoke post (Worker.run_jobs invoke pre w).2).2).
Proof.
  revert w. induction pre as [|l pre IH]; intros w Hret.
  - simpl. by destruct (Worker.run_jobs invoke post w) as [[c d] w'].
  - simpl in *. destruct (Worker.run_job invoke l w) as [[|t] w1]; [|discriminate].
    specialize (IH w1).
    destruct (Worker.run_jobs invoke pre w1) as [[c d] w2]. simpl in *.
    rewrite (IH Hret). reflexivity.
Qed.

(** A pass that no raise ended has applied the loop body to every job of the
    snapshot, and [work] to every job of every snapshot. *)
Lemma run_jobs_process_all invoke snapshot w :
  (Worker.run_jobs invoke snapshot w).1.1 = Returned →
  (Worker.run_jobs invoke snapshot w).2 = process_all invoke snapshot w.
Proof.
  revert w. induction snapshot as [|l rest IH]; intros w; [reflexivity|].
  unfold process_all. simpl.
  destruct (Worker.run_job invoke l w) as [[|t] w1]; simpl; [|discriminate].
  specialize (IH w1).
  destruct (Worker.run_jobs invoke rest w1) as [[c d] w2]. simpl in *. exact IH.
Qed.

Lemma run_queues_drain_all invoke qs w :
  (Worker.run_queues invoke qs w).1.1 = Returned →
  (Worker.run_queues invoke qs w).2 = drain_all invoke qs w.
Proof.
  revert w. induction qs as [|q rest IH]; intros w; [reflexivity|].
  unfold drain_all. simpl.
  pose proof (run_jobs_process_all invoke (Queue.jobs q w) w) as Hq.
  destruct (Worker.run_jobs invoke (Queue.jobs q w) w) as [[[|t] d] w1]; simpl in *;
    [|discriminate].
  rewrite <- Hq by reflexivity. specialize (IH w1).
  destruct (Worker.run_queues invoke rest w1) as [[c ds] w2]. simpl in *. exact IH.
Qed.

(** A raise leaves the loop body, the inner loop and [work] only when a
    target raised outside [Exception], and the world is then as that target
    left it. *)
Lemma run_job_propagated invoke l w text :
  (Worker.run_job invoke l w).1 = Propagated text →
  ∃ job f, heap w !! l = Some job ∧ func job = Callable f
           ∧ invoke f (args job) (kwargs job) w
             = (Raises (OfBaseExceptionOnly text), (Worker.run_job invoke l w).2).
Proof.
  unfold Worker.run_job. destruct (heap w !! l) as [job|]; [|discriminate].
  destruct (func job) as [f|v] eqn:Hf; [|discriminate].
  destruct (invoke f (args job) (kwargs job) w) as [[v|[t|t]] w1] eqn:Hi;
    simpl; try discriminate.
  intros [= ->]. exists job, f. by rewrite Hi.
Qed.

Lemma run_jobs_propagated invoke snapshot w text :
  (Worker.run_jobs invoke snapshot w).1.1 = Propagated text →
  ∃ f a k w0,
    invoke f a k w0
    = (Raises (OfBaseExceptionOnly text), (Worker.run_jobs invoke snapshot w).2).
Proof.
  revert w. induction snapshot as [|l rest IH]; intros w; simpl; [discriminate|].
  pose proof (run_job_propagated invoke l w) as Hl.
  destruct (Worker.run_job invoke l w) as [[|t] w1]; simpl in *.
  - specialize (IH w1).
    destruct (Worker.run_jobs invoke rest w1) as [[c d] w2]. simpl in *. exact IH.
  - intros [= ->]. destruct (Hl text eq_refl) as (job & f & _ & _ & Hi). eauto.
Qed.

Lemma run_queues_propagated invoke qs w text :
  (Worker.run_queues invoke qs w).1.1 = Propagated text →
  ∃ f a k w0,
    invoke f a k w0
    = (Raises (OfBaseExceptionOnly text), (Worker.run_queues invoke qs w).2).
Proof.
  revert w. induction qs as [|q rest IH]; intros w; simpl; [discriminate|].
  pose proof (run_jobs_propagated invoke (Queue.jobs q w) w) as Hq.
  destruct (Worker.run_jobs invoke (Queue.jobs q w) w) as [[[|t] d] w1]; simpl in *.
  - specialize (IH w1).
    destruct (Worker.run_queues invoke rest w1) as [[c ds] w2]. simpl in *. exact IH.
  - intros [= ->]. exact (Hq text eq_refl).
Qed.

(** C7, as the code has it.  The handler is [except Exception].  Take any
    pass over a snapshot [pre ++ l :: post] that reaches the job behind [l],
    and let the target of that job raise an [Exception] with text [text].
    Then the iteration returns: the job is as the target left it but for the
    error text, which is [text], the status, which is failed, and the end
    time; no other job is written; and the pass goes on with [post] from
    that world on, so that, unless a later raise ends it, the world after
    the pass is the loop body applied to every job of [post] in turn.  For
    [work] as a whole: when it returns, the loop body has been applied to
    every job of every snapshot; a raise leaves it only when a target
    raised an object that is not an [Exception] (as [SystemExit] and
    [KeyboardInterrupt] are), so never when the targets raise [Exception]s
    only; and such a raise is not caught, wherever in a pass it happens:
    the job is not written, the later jobs are not processed, and the world
    is as the raising target left it. *)
Theorem C7_exception_is_captured
    (invoke : FuncId → list Value → gmap string Value → World → Outcome * World)
    (self : Worker) (pre post : list nat) (l : nat) (w0 w1 : World)
    (job job1 : Job) (f : FuncId) (text : string) :
  let w := (Worker.run_jobs invoke pre w0).2 in
  (Worker.run_jobs invoke pre w0).1.1 = Returned →
  heap w !! l = Some job →
  func job = Callable f →
  invoke f (args job) (kwargs job) w = (Raises (OfException text), w1) →
  heap w1 !! l = Some job1 →
  let w2 := (Worker.run_job invoke l w).2 in
  let r := Worker.run_jobs invoke post w2 in
  (Worker.run_job invoke l w).1 = Returned
  ∧ heap w2 !! l
    = Some (Job.with_ended_at (Some (clock w1))
              (Job.with_status JobStatus.FAILED (Job.with_exc_info (Some text) job1)))
  ∧ (∀ l0, l0 ≠ l → heap w2 !! l0 = heap w1 !! l0)
  ∧ Worker.run_jobs invoke (pre ++ l :: post) w0 = (r.1.1, (pre ++ l :: r.1.2)%list, r.2)
  ∧ (r.1.1 = Returned →
     (Worker.run_jobs invoke (pre ++ l :: post) w0).2 = process_all invoke post w2)
  ∧ (∀ w3, (Worker.work invoke self burst w3).1.1 = Returned →
           (Worker.work invoke self burst w3).2 = drain_all invoke (queues self) w3)
  ∧ (∀ w3 text3, (Worker.work invoke self burst w3).1.1 = Propagated text3 →
       ∃ f3 a3 k3 w4,
         invoke f3 a3 k3 w4
         = (Raises (OfBaseExceptionOnly text3), (Worker.work invoke self burst w3).2))
  ∧ (raises_only_exceptions invoke →
     ∀ w3, (Worker.work invoke self burst w3).1.1 = Returned)
  ∧ (∀ pre3 l3 rest3 w3 job3 f3 text3 w4,
       (Worker.run_jobs invoke pre3 w3).1.1 = Returned →
       heap (Worker.run_jobs invoke pre3 w3).2 !! l3 = Some job3 →
       func job3 = Callable f3 →
       invoke f3 (args job3) (kwargs job3) (Worker.run_jobs invoke pre3 w3).2
       = (Raises (OfBaseExceptionOnly text3), w4) →
       Worker.run_jobs invoke (pre3 ++ l3 :: rest3) w3
       = (Propagated text3, (pre3 ++ [l3])%list, w4)).
Proof.
  intros w Hpre Hl Hf Hi Hl1 w2 r.
  pose proof (run_job_raises invoke l w job f text w1 Hl Hf Hi) as Hrun.
  assert (Hw2 : w2 = World.set_status l JobStatus.FAILED
                       (World.update_job l (Job.with_exc_info (Some text)) w1))
    by (unfold w2; by rewrite Hrun).
  split; [by rewrite Hrun|].
  split; [rewrite Hw2; by rewrite (lookup_after_write _ _ _ _ job1 Hl1)|].
  split.
  { intros l0 Hne. rewrite Hw2, heap_set_status, heap_update_job.
    by rewrite !list_lookup_alter_ne. }
  assert (Hall : Worker.run_jobs invoke (pre ++ l :: post) w0
                 = (r.1.1, (pre ++ l :: r.1.2)%list, r.2)).
  { rewrite (run_jobs_app invoke pre (l :: post) w0 Hpre). fold w.
    rewrite (run_jobs_cons invoke l post w w2) by (by rewrite Hrun, Hw2).
    reflexivity. }
  split; [exact Hall|].
  split; [intros Hr; rewrite Hall; cbn [snd]; by apply run_jobs_process_all|].
  split; [intros w3; rewrite work_burst; apply run_queues_drain_all|].
  split; [intros w3 text3; rewrite work_burst; apply run_queues_propagated|].
  split.
  { intros Hex w3. rewrite work_burst.
    by destruct (run_queues_all invoke (queues self) w3 Hex) as (e & w' & -> & _). }
  intros pre3 l3 rest3 w3 job3 f3 text3 w4 Hpre3 Hl3 Hf3 Hi3.
  rewrite (run_jobs_app invoke pre3 (l3 :: rest3) w3 Hpre3). simpl.
  by rewrite (run_job_propagates invoke l3 _ job3 f3 text3 w4 Hl3 Hf3 Hi3).
Qed.

Lemma pure_targets_raise_only_exceptions : raises_only_exceptions pure_targets.
Proof. intros f a k w text. unfold pure_targets. repeat case_match; discriminate. Qed.

Lemma pure_targets_keep_objects : keeps_objects pure_targets.
Proof. intros f a k w. by rewrite pure_targets_world. Qed.

(** C7 on the drain test: the pass has run the first job and reaches the
    second, whose target raises; the second job is failed with the text
    boom, and the pass goes on with the third job. *)
Lemma C7_exception_is_captured_witness :
  let w := (Worker.run_jobs pure_targets [0] three_jobs).2 in
  let w2 := (Worker.run_job pure_targets 1 w).2 in
  (Worker.run_jobs pure_targets [0] three_jobs).1.1 = Returned
  ∧ heap w !! 1 = Some the_raising_job
  ∧ func the_raising_job = Callable "raise_boom"
  ∧ pure_targets "raise_boom" (args the_raising_job) (kwargs the_raising_job) w
    = (Raises (OfException "boom"), w)
  ∧ heap w2 !! 1
    = Some (Job.with_ended_at (Some (clock w))
              (Job.with_status JobStatus.FAILED
                 (Job.with_exc_info (Some "boom") the_raising_job)))
  ∧ (Worker.run_jobs pure_targets ([0] ++ 1 :: [2]) three_jobs).2
    = process_all pure_targets [2] w2.
Proof.
  intros w w2.
  assert (H0 : (Worker.run_jobs pure_targets [0] three_jobs).1.1 = Returned)
    by (vm_compute; reflexivity).
  assert (H1 : heap w !! 1 = Some the_raising_job) by (vm_compute; reflexivity).
  assert (H2 : func the_raising_job = Callable "raise_boom") by reflexivity.
  assert (H3 : pure_targets "raise_boom" (args the_raising_job) (kwargs the_raising_job) w
               = (Raises (OfException "boom"), w)) by reflexivity.
  assert (H5 : (Worker.run_jobs pure_targets [2] w2).1.1 = Returned)
    by (vm_compute; reflexivity).
  split; [exact H0|]. split; [exact H1|]. split; [exact H2|]. split; [exact H3|].
  pose proof (C7_exception_is_captured pure_targets default_worker [0] [2] 1 three_jobs w
                the_raising_job the_raising_job "raise_boom" "boom" H0 H1 H2 H3 H1) as K.
  cbv zeta in K. destruct K as (_ & K2 & _ & _ & K5 & _).
  split; [exact K2|]. exact (K5 H5).
Defined.

(** C7 as stated fails for a raise outside [Exception]: with a first job whose
    target calls [sys.exit(1)] and a second that returns 3, [SystemExit]
    leaves [work], the first job is not marked failed and has no error text,
    and the second job is never processed. *)
Lemma C7_system_exit_leaves_work :
  let '(c, executed, w) :=
    Worker.work exiting_targets default_worker burst
      (enqueue_all ["sys_exit"; "return_3"] fresh) in
  c = Propagated "1"
  ∧ executed = [("default", [0])]
  ∧ ((λ j, (status j, result j, exc_info j)) <$> heap w)
    = [("queued", VNone, None); ("queued", VNone, None)].
Proof. vm_compute. repeat split; reflexivity. Qed.

(** ** The snapshot of a drain (C8) *)















(** Snapshot isolation on that queue: A and B are executed, D is in the queue
    after the call, still queued and without result. *)
Example enqueued_during_the_drain_is_not_run :
  let '(c, executed, w) := Worker.work enqueuing_targets default_worker burst a_then_b in
  c = Returned
  ∧ executed = [("default", [0; 1])]
  ∧ Queue.jobs "default" w = [0; 1; 2]
  ∧ ((λ j, (status j, result j)) <$> heap w)
    = [("finished", VRef 2); ("finished", VInt 1); ("queued", VNone)].
Proof. vm_compute. repeat split; reflexivity. Qed.


(** ** FIFO order of [jobs] (C9) *)

Lemma omap_ext_in {A B} (f g : A → option B) (l : list A) :
  (∀ x, x ∈ l → f x = g x) → omap f l = omap g l.
Proof.
  induction l as [|x l IH]; intros H; csimpl; [reflexivity|].
  rewrite (H x) by apply list_elem_of_here.
  rewrite IH; [reflexivity|]. intros y Hy. apply H. by apply list_elem_of_further.
Qed.

(** The queue after one [enqueue]: the new job, named by its id, is mapped
    under that id and the id is appended to the ordering. *)
Lemma enqueue_queue uuid4_hex q target a kw depends_on job_id w l w' :
  Queue.enqueue uuid4_hex q target a kw depends_on job_id w = (l, w') →
  ∃ job,
    heap w' !! l = Some job
    ∧ Queue._jobs q w' = <[id job := l]> (Queue._jobs q w)
    ∧ Queue._deque q w' = (Queue._deque q w ++ [id job])%list.
Proof.
  intros Henq.
  destruct (enqueue_effect uuid4_hex q target a kw depends_on job_id w)
    as (job & w0 & Henq' & Hheap & _ & _ & _ & _ & _ & _ & _ & _ & _ & HQ & HD & _).
  rewrite Henq in Henq'. inversion Henq'; subst. exists job.
  split; [rewrite Hheap; apply lookup_new_job|].
  unfold Queue._jobs, Queue._deque. rewrite HQ, HD, !lookup_insert_eq. auto.
Qed.

(** Where [jobs] is in enqueue order.  [jobs] follows the durable ordering
    and [enqueue] appends to it: three jobs A, B, C enqueued to one queue
    under ids that differ from each other and from every entry the ordering
    already holds are returned in that order, after the jobs that were
    returned before.  And an entry of the ordering that has no job in the
    mapping counts for nothing: [jobs] is what it would be without that
    entry. *)
Lemma jobs_in_enqueue_order_of_new_ids
    (uuid4_hex : nat → string) (q : string)
    (fA fB fC : Target) (aA aB aC : list Value) (kA kB kC : gmap string Value)
    (dA dB dC : Value) (jA jB jC : option string)
    (w w1 w2 w3 : World) (lA lB lC : nat) (a b c : string) :
  Queue.enqueue uuid4_hex q fA aA kA dA jA w = (lA, w1) →
  Queue.enqueue uuid4_hex q fB aB kB dB jB w1 = (lB, w2) →
  Queue.enqueue uuid4_hex q fC aC kC dC jC w2 = (lC, w3) →
  id <$> heap w1 !! lA = Some a →
  id <$> heap w2 !! lB = Some b →
  id <$> heap w3 !! lC = Some c →
  NoDup [a; b; c] →
  Forall (λ x, x ∉ Queue._deque q w) [a; b; c] →
  Queue.jobs q w3 = (Queue.jobs q w ++ [lA; lB; lC])%list
  ∧ (∀ w0 d1 x d2,
       Queue._deque q w0 = (d1 ++ x :: d2)%list →
       Queue._jobs q w0 !! x = None →
       Queue.jobs q w0 = omap (λ job_id, Queue._jobs q w0 !! job_id) (d1 ++ d2)%list).
Proof.
  intros HA HB HC Ha Hb Hc Hnd Hfresh. split.
  - destruct (enqueue_queue _ _ _ _ _ _ _ _ _ _ HA) as (jobA & HlA & HJ1 & HD1).
    destruct (enqueue_queue _ _ _ _ _ _ _ _ _ _ HB) as (jobB & HlB & HJ2 & HD2).
    destruct (enqueue_queue _ _ _ _ _ _ _ _ _ _ HC) as (jobC & HlC & HJ3 & HD3).
    rewrite HlA in Ha. rewrite HlB in Hb. rewrite HlC in Hc. simpl in *.
    inversion Ha as [Ha']. inversion Hb as [Hb']. inversion Hc as [Hc'].
    rewrite Ha' in *. rewrite Hb' in *. rewrite Hc' in *. clear Ha Hb Hc.
    apply NoDup_cons in Hnd as [Hab Hnd]. apply NoDup_cons in Hnd as [Hbc _].
    assert (a ≠ b ∧ a ≠ c ∧ b ≠ c) as (Nab & Nac & Nbc).
    { repeat split; intros ->; try (apply Hab; set_solver); apply Hbc; set_solver. }
    unfold Queue.jobs.
    rewrite HD3, HD2, HD1, HJ3, HJ2, HJ1, <- !app_assoc. simpl.
    rewrite omap_app. f_equal.
    + apply omap_ext_in. intros x Hx.
      assert (x ≠ a ∧ x ≠ b ∧ x ≠ c) as (Na & Nb & Nc).
      { rewrite Forall_forall in Hfresh.
        repeat split; intros ->; eapply Hfresh; try exact Hx; set_solver. }
      by rewrite !lookup_insert_ne.
    + simpl.
      rewrite (lookup_insert_ne _ c a), (lookup_insert_ne _ b a), lookup_insert_eq by done.
      simpl. rewrite (lookup_insert_ne _ c b), lookup_insert_eq by done.
      simpl. by rewrite lookup_insert_eq.
  - intros w0 d1 x d2 Hd Hx. unfold Queue.jobs. rewrite Hd, !omap_app. simpl.
    by rewrite Hx.
Qed.

Example jobs_in_enqueue_order_of_three_new_ids :
  let enq f w := Queue.enqueue sample_uuid4_hex "default" (Callable f) [] ∅ VNone None w in
  let w1 := (enq "return_1" one_job).2 in
  let w2 := (enq "raise_boom" w1).2 in
  let w3 := (enq "return_3" w2).2 in
  enq "return_1" one_job = (1, w1)
  ∧ enq "raise_boom" w1 = (2, w2)
  ∧ enq "return_3" w2 = (3, w3)
  ∧ id <$> heap w1 !! 1 = Some "uuid2"
  ∧ id <$> heap w2 !! 2 = Some "uuid3"
  ∧ id <$> heap w3 !! 3 = Some "uuid4"
  ∧ NoDup ["uuid2"; "uuid3"; "uuid4"]
  ∧ Forall (λ x, x ∉ Queue._deque "default" one_job) ["uuid2"; "uuid3"; "uuid4"]
  ∧ Queue.jobs "default" w3 = (Queue.jobs "default" one_job ++ [1; 2; 3])%list
  ∧ (∀ w0 d1 x d2,
       Queue._deque "default" w0 = (d1 ++ x :: d2)%list →
       Queue._jobs "default" w0 !! x = None →
       Queue.jobs "default" w0
       = omap (λ job_id, Queue._jobs "default" w0 !! job_id) (d1 ++ d2)%list).
Proof.
  intros enq w1 w2 w3.
  assert (H1 : enq "return_1" one_job = (1, w1)) by (vm_compute; reflexivity).
  assert (H2 : enq "raise_boom" w1 = (2, w2)) by (vm_compute; reflexivity).
  assert (H3 : enq "return_3" w2 = (3, w3)) by (vm_compute; reflexivity).
  assert (H4 : id <$> heap w1 !! 1 = Some "uuid2") by (vm_compute; reflexivity).
  assert (H5 : id <$> heap w2 !! 2 = Some "uuid3") by (vm_compute; reflexivity).
  assert (H6 : id <$> heap w3 !! 3 = Some "uuid4") by (vm_compute; reflexivity).
  assert (H7 : NoDup ["uuid2"; "uuid3"; "uuid4"])
    by (apply (bool_decide_unpack _); vm_compute; exact I).
  assert (H8 : Forall (λ x, x ∉ Queue._deque "default" one_job) ["uuid2"; "uuid3"; "uuid4"])
    by (apply (bool_decide_unpack _); vm_compute; exact I).
  repeat (split; [assumption|]).
  exact (jobs_in_enqueue_order_of_new_ids sample_uuid4_hex "default"
           (Callable "return_1") (Callable "raise_boom") (Callable "return_3")
           [] [] [] ∅ ∅ ∅ VNone VNone VNone None None None
           one_job w1 w2 w3 1 2 3 "uuid2" "uuid3" "uuid4"
           H1 H2 H3 H4 H5 H6 H7 H8).
Defined.

(** C9 on the code.  A job is enqueued under the id x and deleted with
    [delete_rq_job], whose comment says that it removes the job from its
    queue: the mapping loses the id, the ordering keeps its entry.  Then A
    (the job 1) is enqueued under the id a and B (the job 2) under the id x.
    A was enqueued before B and neither was removed, but [jobs], whose
    docstring says that it returns the jobs in FIFO order, returns B first,
    at the place of the deleted job, and returns it twice. *)
Theorem C9_later_job_returned_first :
  let enq f job_id w :=
    (Queue.enqueue sample_uuid4_hex "default" (Callable f) [] ∅ VNone (Some job_id) w).2 in
  let deleted := (delete_rq_job "x" (enq "return_1" "x" fresh)).2 in
  Queue._deque "default" deleted = ["x"]
  ∧ Queue.fetch_job "default" "x" deleted = None
  ∧ Queue.jobs "default" deleted = []
  ∧ reused_id = enq "return_3" "x" (enq "return_1" "a" deleted)
  ∧ Queue._deque "default" reused_id = ["x"; "a"; "x"]
  ∧ Queue.fetch_job "default" "a" reused_id = Some 1
  ∧ Queue.fetch_job "default" "x" reused_id = Some 2
  ∧ ((λ j, (id j, created_at j)) <$> heap reused_id) = [("x", 0); ("a", 2); ("x", 4)]
  ∧ Queue.jobs "default" reused_id = [2; 1; 2].
Proof. vm_compute. repeat split; reflexivity. Qed.

(** * Further properties of the code *)

(** ** Registries: add, remove, contains, len *)

Lemma registry_key_inj c n c' n' :
  BaseRegistry.registry_key c n = BaseRegistry.registry_key c' n' → c = c' ∧ n = n'.
Proof.
  unfold BaseRegistry.registry_key.
  destruct c, c'; simpl; intros H; try discriminate H;
    (split; [reflexivity|]); by simplify_eq.
Qed.

Lemma index_add_same c n job_id w :
  BaseRegistry.index c n (BaseRegistry.add c n job_id w)
  = {[job_id]} ∪ BaseRegistry.index c n w.
Proof.
  unfold BaseRegistry.add. unfold BaseRegistry.index at 1. simpl.
  by rewrite lookup_insert_eq.
Qed.

Lemma index_remove_same c n job_id w :
  BaseRegistry.index c n (BaseRegistry.remove c n job_id w)
  = BaseRegistry.index c n w ∖ {[job_id]}.
Proof.
  unfold BaseRegistry.remove. case_bool_decide as Hin.
  - unfold BaseRegistry.index at 1. simpl. by rewrite lookup_insert_eq.
  - set_solver.
Qed.

Lemma size_add_id (s : gset string) (x : string) :
  size ({[x]} ∪ s) = if bool_decide (x ∈ s) then size s else S (size s).
Proof.
  case_bool_decide as Hin.
  - f_equal. set_solver.
  - rewrite size_union by set_solver. by rewrite size_singleton.
Qed.

Lemma size_remove_id (s : gset string) (x : string) :
  size (s ∖ {[x]}) = if bool_decide (x ∈ s) then pred (size s) else size s.
Proof.
  case_bool_decide as Hin.
  - rewrite size_difference by set_solver. rewrite size_singleton. lia.
  - f_equal. set_solver.
Qed.

(** One registry behaves as a set of ids: an added id is contained, and the
    length grows by one unless the id was there already; a removed id is not
    contained, and the length shrinks by one if the id was there; any other
    id is contained after [add] or [remove] exactly when it was before. *)
Theorem registry_is_a_set_of_ids (c : RegistryClass) (n job_id : string) (w : World) :
  BaseRegistry.contains c n job_id (BaseRegistry.add c n job_id w) = true
  ∧ BaseRegistry.len c n (BaseRegistry.add c n job_id w)
    = (if BaseRegistry.contains c n job_id w
       then BaseRegistry.len c n w else S (BaseRegistry.len c n w))
  ∧ BaseRegistry.contains c n job_id (BaseRegistry.remove c n job_id w) = false
  ∧ BaseRegistry.len c n (BaseRegistry.remove c n job_id w)
    = (if BaseRegistry.contains c n job_id w
       then pred (BaseRegistry.len c n w) else BaseRegistry.len c n w)
  ∧ (∀ other, other ≠ job_id →
       BaseRegistry.contains c n other (BaseRegistry.add c n job_id w)
       = BaseRegistry.contains c n other w
       ∧ BaseRegistry.contains c n other (BaseRegistry.remove c n job_id w)
         = BaseRegistry.contains c n other w).
Proof.
  unfold BaseRegistry.contains, BaseRegistry.len.
  rewrite index_add_same, index_remove_same, size_add_id, size_remove_id.
  split; [apply bool_decide_eq_true; set_solver|].
  split; [reflexivity|].
  split; [apply bool_decide_eq_false; set_solver|].
  split; [reflexivity|].
  intros other Hne. split; apply bool_decide_ext; set_solver.
Qed.

(** Registries do not share entries: [add] and [remove] on the registry of
    one class and queue name leave the registry of every other class or
    queue name, the queues and the jobs as they are. *)
Theorem registries_are_independent
    (c c' : RegistryClass) (n n' job_id : string) (w : World) :
  (c, n) ≠ (c', n') →
  BaseRegistry.index c' n' (BaseRegistry.add c n job_id w) = BaseRegistry.index c' n' w
  ∧ BaseRegistry.index c' n' (BaseRegistry.remove c n job_id w) = BaseRegistry.index c' n' w
  ∧ heap (BaseRegistry.add c n job_id w) = heap w
  ∧ heap (BaseRegistry.remove c n job_id w) = heap w
  ∧ _QUEUES (BaseRegistry.add c n job_id w) = _QUEUES w
  ∧ _QUEUES (BaseRegistry.remove c n job_id w) = _QUEUES w
  ∧ deques (BaseRegistry.add c n job_id w) = deques w
  ∧ deques (BaseRegistry.remove c n job_id w) = deques w.
Proof.
  intros Hne.
  assert (Hk : BaseRegistry.registry_key c n ≠ BaseRegistry.registry_key c' n').
  { intros H. apply registry_key_inj in H as [-> ->]. by apply Hne. }
  unfold BaseRegistry.remove. case_bool_decide;
    unfold BaseRegistry.add, BaseRegistry.index; simpl;
    rewrite ?lookup_insert_ne by done; repeat split; reflexivity.
Qed.

Lemma registries_are_independent_witness :
  (StartedJobRegistry, "default") ≠ (FailedJobRegistry, "default")
  ∧ BaseRegistry.index FailedJobRegistry "default"
      (BaseRegistry.add StartedJobRegistry "default" "uuid1" three_jobs)
    = BaseRegistry.index FailedJobRegistry "default" three_jobs.
Proof.
  assert (H : (StartedJobRegistry, "default") ≠ (FailedJobRegistry, "default"))
    by discriminate.
  split; [exact H|].
  exact (proj1 (registries_are_independent StartedJobRegistry FailedJobRegistry
                  "default" "default" "uuid1" three_jobs H)).
Defined.

(** ** Queue: enqueue, fetch_job, count, empty *)

Lemma _jobs_other q q' m w :
  q' ≠ q → Queue._jobs q' (World.with_QUEUES (<[q := m]> (_QUEUES w)) w) = Queue._jobs q' w.
Proof. intros Hne. unfold Queue._jobs. simpl. by rewrite lookup_insert_ne. Qed.

(** Round trip.  The job that [enqueue] returns is the one [fetch_job] finds
    under its id, and it carries what was given: the queue as origin
    (default for the empty name), the target, args and kwargs; its id is the
    given [job_id] when that is a non-empty string and a fresh draw
    otherwise. *)
Theorem enqueue_then_fetch_job
    (uuid4_hex : nat → string) (q : string) (target : Target) (a : list Value)
    (kw : gmap string Value) (depends_on : Value) (job_id : option string) (w : World) :
  let r := Queue.enqueue uuid4_hex q target a kw depends_on job_id w in
  ∃ job,
    heap r.2 !! r.1 = Some job
    ∧ Queue.fetch_job q (id job) r.2 = Some r.1
    ∧ origin job = (if String.eqb q "" then "default" else q)
    ∧ func job = target ∧ args job = a ∧ kwargs job = kw
    ∧ result job = VNone ∧ exc_info job = None
    ∧ (∀ s, job_id = Some s → s ≠ "" → id job = s)
    ∧ (job_id = None ∨ job_id = Some "" → id job = uuid4_hex (entropy w)).
Proof.
  destruct (enqueue_effect uuid4_hex q target a kw depends_on job_id w)
    as (job & w' & Henq & Hheap & Hid & Ho & _ & Hf & Ha & Hk & Hr & He & _ & HQ & _).
  cbv zeta. rewrite Henq. simpl. exists job.
  split; [rewrite Hheap; apply lookup_new_job|].
  split.
  { unfold Queue.fetch_job. unfold Queue._jobs at 1. rewrite HQ, lookup_insert_eq. simpl.
    by rewrite lookup_insert_eq. }
  repeat (split; [assumption|]). rewrite Hid. unfold chosen_id. split.
  - intros s -> Hs. apply String.eqb_neq in Hs. by rewrite Hs.
  - intros [->| ->]; reflexivity.
Qed.

(** [enqueue] on one queue leaves every other queue, every registry, the
    worker directory and every job that existed as they are. *)
Theorem enqueue_touches_one_queue
    (uuid4_hex : nat → string) (q : string) (target : Target) (a : list Value)
    (kw : gmap string Value) (depends_on : Value) (job_id : option string) (w : World) :
  let w' := (Queue.enqueue uuid4_hex q target a kw depends_on job_id w).2 in
  (∀ q', q' ≠ q →
     Queue._jobs q' w' = Queue._jobs q' w
     ∧ Queue._deque q' w' = Queue._deque q' w
     ∧ Queue.jobs q' w' = Queue.jobs q' w
     ∧ Queue.count q' w' = Queue.count q' w)
  ∧ indexes w' = indexes w
  ∧ _WORKERS w' = _WORKERS w
  ∧ (∀ l job, heap w !! l = Some job → heap w' !! l = Some job).
Proof.
  destruct (enqueue_effect uuid4_hex q target a kw depends_on job_id w)
    as (job & w' & Henq & Hheap & _ & _ & _ & _ & _ & _ & _ & _ & _ & HQ & HD & HI & HW).
  cbv zeta. rewrite Henq. simpl. split; [|split; [done|split; [done|]]].
  - intros q' Hne.
    assert (HJ : Queue._jobs q' w' = Queue._jobs q' w)
      by (unfold Queue._jobs; rewrite HQ; by rewrite lookup_insert_ne).
    assert (HO : Queue._deque q' w' = Queue._deque q' w)
      by (unfold Queue._deque; rewrite HD; by rewrite lookup_insert_ne).
    unfold Queue.jobs, Queue.count. by rewrite HJ, HO.
  - intros l job0 Hl. rewrite Hheap. by apply lookup_app_l_Some.
Qed.

(** [enqueue] always appends one entry to the ordering, but [count] grows
    only when the id is new to the queue: under an id the queue already maps,
    the new job takes the place of the old one in the mapping. *)
Theorem enqueue_count
    (uuid4_hex : nat → string) (q : string) (target : Target) (a : list Value)
    (kw : gmap string Value) (depends_on : Value) (job_id : option string) (w : World) :
  let r := Queue.enqueue uuid4_hex q target a kw depends_on job_id w in
  let new_id := chosen_id uuid4_hex job_id w in
  length (Queue._deque q r.2) = S (length (Queue._deque q w))
  ∧ Queue.count q r.2
    = match Queue.fetch_job q new_id w with
      | Some _ => Queue.count q w
      | None => S (Queue.count q w)
      end
  ∧ Queue.fetch_job q new_id r.2 = Some r.1
  ∧ (∀ other, other ≠ new_id →
       Queue.fetch_job q other r.2 = Queue.fetch_job q other w).
Proof.
  destruct (enqueue_queue uuid4_hex q target a kw depends_on job_id w _ _
              (surjective_pairing _)) as (job & Hl & HJ & HD).
  destruct (enqueue_effect uuid4_hex q target a kw depends_on job_id w)
    as (job' & w' & Henq & Hheap & Hid & _).
  cbv zeta. rewrite Henq in *. simpl in *.
  rewrite Hheap, lookup_new_job in Hl. inversion Hl; subst job'. rewrite <- Hid.
  unfold Queue.count, Queue.fetch_job. rewrite HJ, HD.
  split; [rewrite length_app; simpl; lia|].
  split; [rewrite map_size_insert; by destruct (Queue._jobs q w !! id job)|].
  split; [by rewrite lookup_insert_eq|].
  intros other Hne. by rewrite lookup_insert_ne.
Qed.

(** [empty] clears the ordering and the mapping of its queue and nothing
    else: the durable ordering of the queue is the empty list and its mapping
    the empty one, so [jobs], [count] and [fetch_job] find nothing; the
    orderings and mappings of the other queues, the job objects, every
    registry, those of the emptied queue included, and the workers stay as
    they are. *)
Theorem empty_clears_one_queue (q : string) (w : World) :
  let w' := Queue.empty q w in
  Queue._deque q w' = []
  ∧ Queue._jobs q w' = ∅
  ∧ Queue.jobs q w' = []
  ∧ Queue.count q w' = 0
  ∧ (∀ job_id, Queue.fetch_job q job_id w' = None)
  ∧ (∀ q', q' ≠ q →
       Queue._deque q' w' = Queue._deque q' w ∧ Queue._jobs q' w' = Queue._jobs q' w
       ∧ Queue.jobs q' w' = Queue.jobs q' w ∧ Queue.count q' w' = Queue.count q' w)
  ∧ heap w' = heap w
  ∧ indexes w' = indexes w
  ∧ _WORKERS w' = _WORKERS w.
Proof.
  cbv zeta. unfold Queue.empty, Queue.jobs, Queue.count, Queue.fetch_job,
    Queue._jobs, Queue._deque. simpl.
  rewrite !lookup_insert_eq. simpl. repeat split; auto.
  all: by rewrite !lookup_insert_ne.
Qed.

(** ** get_queue and get_worker *)

Lemma get_queue_jobs name q w : Queue._jobs q (get_queue name w) = Queue._jobs q w.
Proof.
  unfold get_queue, Queue._jobs. destruct (_QUEUES w !! name) eqn:Hn; [reflexivity|].
  simpl. destruct (decide (name = q)) as [->|Hne].
  - by rewrite lookup_insert_eq, Hn.
  - by rewrite lookup_insert_ne.
Qed.

Lemma get_queue_rest name w :
  heap (get_queue name w) = heap w ∧ deques (get_queue name w) = deques w
  ∧ indexes (get_queue name w) = indexes w ∧ _WORKERS (get_queue name w) = _WORKERS w
  ∧ clock (get_queue name w) = clock w ∧ entropy (get_queue name w) = entropy w.
Proof. unfold get_queue. destruct (_QUEUES w !! name); repeat split; reflexivity. Qed.

(** [get_queue] changes nothing one can observe through a queue: for every
    queue, the one asked for included, the mapping, the ordering, [jobs],
    [count] and [fetch_job] are what they were, and so are the job objects
    and the registries.  Asking twice is the same as asking once, and asking
    for a queue that [_QUEUES] knows changes nothing at all. *)
Theorem get_queue_is_silent (name : string) (w : World) :
  (∀ q, Queue._jobs q (get_queue name w) = Queue._jobs q w
        ∧ Queue._deque q (get_queue name w) = Queue._deque q w
        ∧ Queue.jobs q (get_queue name w) = Queue.jobs q w
        ∧ Queue.count q (get_queue name w) = Queue.count q w
        ∧ ∀ job_id, Queue.fetch_job q job_id (get_queue name w) = Queue.fetch_job q job_id w)
  ∧ heap (get_queue name w) = heap w
  ∧ indexes (get_queue name w) = indexes w
  ∧ get_queue name (get_queue name w) = get_queue name w
  ∧ (is_Some (_QUEUES w !! name) → get_queue name w = w).
Proof.
  destruct (get_queue_rest name w) as (Hh & Hd & Hi & _).
  split; [|split; [done|split; [done|split]]].
  - intros q. pose proof (get_queue_jobs name q w) as HJ.
    assert (HO : Queue._deque q (get_queue name w) = Queue._deque q w)
      by (unfold Queue._deque; by rewrite Hd).
    unfold Queue.jobs, Queue.count, Queue.fetch_job. by rewrite HJ, HO.
  - unfold get_queue. destruct (_QUEUES w !! name) eqn:Hn; [by rewrite Hn|].
    simpl. by rewrite lookup_insert_eq.
  - intros [m Hm]. unfold get_queue. by rewrite Hm.
Qed.




(** ** The snapshot after an enqueue *)

Lemma jobs_after_append q i l w w' :
  _QUEUES w' = <[q := <[i := l]> (Queue._jobs q w)]> (_QUEUES w) →
  deques w' = <[q := (Queue._deque q w ++ [i])%list]> (deques w) →
  Queue.jobs q w'
  = (omap (λ job_id, <[i := l]> (Queue._jobs q w) !! job_id) (Queue._deque q w) ++ [l])%list.
Proof.
  intros HQ HD. unfold Queue.jobs.
  unfold Queue._jobs at 1. unfold Queue._deque at 1.
  rewrite HQ, HD, !lookup_insert_eq. simpl.
  rewrite omap_app. simpl. by rewrite lookup_insert_eq.
Qed.

(** ** Targets that leave the queues alone *)

Lemma queues_untouched_jobs q w w' :
  queues_untouched w w' → Queue.jobs q w' = Queue.jobs q w.
Proof.
  intros (HQ & HD & _). unfold Queue.jobs, Queue._jobs, Queue._deque. by rewrite HQ, HD.
Qed.

Lemma run_jobs_untouched invoke snapshot w :
  (∀ f a k w0, queues_untouched w0 (invoke f a k w0).2) →
  queues_untouched w (Worker.run_jobs invoke snapshot w).2.
Proof.
  intros Hinv.
  apply (run_jobs_preserves invoke queues_untouched);
    auto using queues_untouched_refl, queues_untouched_set_status.
  - apply queues_untouched_trans.
  - intros. apply queues_untouched_update_job. intros j. by repeat split.
  - intros. apply queues_untouched_update_job. intros j. by repeat split.
Qed.

Lemma run_queues_untouched invoke qs w :
  (∀ f a k w0, queues_untouched w0 (invoke f a k w0).2) →
  queues_untouched w (Worker.run_queues invoke qs w).2.
Proof.
  intros Hinv.
  apply (run_queues_preserves invoke queues_untouched);
    auto using queues_untouched_refl, queues_untouched_set_status.
  - apply queues_untouched_trans.
  - intros. apply queues_untouched_update_job. intros j. by repeat split.
  - intros. apply queues_untouched_update_job. intros j. by repeat split.
Qed.

Lemma snapshots_untouched (qs : list string) w w' :
  queues_untouched w w' →
  ((λ q, (q, Queue.jobs q w')) <$> qs) = ((λ q, (q, Queue.jobs q w)) <$> qs).
Proof.
  intros Hu. apply list_fmap_ext. intros _ q _. f_equal. by apply queues_untouched_jobs.
Qed.

Lemma run_queues_runs_all invoke qs w :
  (∀ f a k w0, queues_untouched w0 (invoke f a k w0).2) →
  raises_only_exceptions invoke →
  (Worker.run_queues invoke qs w).1 = (Returned, (λ q, (q, Queue.jobs q w)) <$> qs).
Proof.
  intros Hinv Hex. revert w. induction qs as [|q rest IH]; intros w; simpl; [reflexivity|].
  pose proof (run_jobs_untouched invoke (Queue.jobs q w) w Hinv) as Hu.
  destruct (run_jobs_all invoke (Queue.jobs q w) w Hex) as [w1 Hrun].
  rewrite Hrun in *. simpl in Hu. specialize (IH w1).
  destruct (Worker.run_queues invoke rest w1) as [[c dones] w2]. simpl in *.
  inversion IH; subst. by rewrite (snapshots_untouched rest w w1 Hu).
Qed.

(** ** After a drain every job is finished or failed *)

Lemma effect_free_untouched invoke :
  effect_free invoke → ∀ f a k w0, queues_untouched w0 (invoke f a k w0).2.
Proof. intros He f a k w0. rewrite He. apply queues_untouched_refl. Qed.

Lemma effect_free_keeps_objects invoke : effect_free invoke → keeps_objects invoke.
Proof. intros He f a k w0. by rewrite He. Qed.

Lemma settled_after_write l g s w job :
  heap w !! l = Some job →
  s = JobStatus.FINISHED ∨ s = JobStatus.FAILED →
  settled l (World.set_status l s (World.update_job l g w)).
Proof.
  intros Hl Hs. exists (Job.set_status s (clock w) (g job)).
  split; [by apply lookup_after_write|].
  rewrite set_status_status, set_status_ended_at.
  split; [exact Hs|]. destruct Hs as [-> | ->]; by eexists.
Qed.

Lemma update_job_id l w : World.update_job l (λ j, j) w = w.
Proof.
  unfold World.update_job. rewrite list_alter_id by done. by destruct w.
Qed.

(** One iteration of the loop, with targets that change nothing and raise
    nothing outside [Exception]: the job is settled, no other job is
    touched. *)
Lemma run_job_settles invoke l w :
  effect_free invoke → raises_only_exceptions invoke →
  is_Some (heap w !! l) →
  settled l (Worker.run_job invoke l w).2
  ∧ (∀ l0, l0 ≠ l → heap (Worker.run_job invoke l w).2 !! l0 = heap w !! l0)
  ∧ length (heap (Worker.run_job invoke l w).2) = length (heap w).
Proof.
  intros Heff Hex [job Hl]. unfold Worker.run_job. rewrite Hl.
  destruct (func job) as [f|v].
  - pose proof (Heff f (args job) (kwargs job) w) as Hw.
    pose proof (Hex f (args job) (kwargs job) w) as Hno.
    destruct (invoke f (args job) (kwargs job) w) as [[v|[text|text]] w1];
      simpl in Hw; subst w1; [| |exfalso; by apply (Hno text)]; cbn [snd].
    + split; [apply (settled_after_write _ _ _ _ job); auto|].
      split; [intros l0 Hne|].
      * rewrite heap_set_status, heap_update_job. by rewrite !list_lookup_alter_ne.
      * rewrite heap_set_status, heap_update_job. by rewrite !length_alter.
    + split; [apply (settled_after_write _ _ _ _ job); auto|].
      split; [intros l0 Hne|].
      * rewrite heap_set_status, heap_update_job. by rewrite !list_lookup_alter_ne.
      * rewrite heap_set_status, heap_update_job. by rewrite !length_alter.
  - cbn [snd]. split; [|split].
    + rewrite <- (update_job_id l w) at 1.
      apply (settled_after_write _ _ _ _ job); auto.
    + intros l0 Hne. rewrite heap_set_status. by rewrite list_lookup_alter_ne.
    + rewrite heap_set_status. by rewrite length_alter.
Qed.

Lemma run_job_keeps_settled invoke l l0 w :
  effect_free invoke → raises_only_exceptions invoke →
  settled l0 w → settled l0 (Worker.run_job invoke l w).2.
Proof.
  intros Heff Hex Hs.
  destruct (heap w !! l) as [job|] eqn:Hl.
  - destruct (run_job_settles invoke l w Heff Hex) as (Hset & Hother & _); [by eexists|].
    destruct (decide (l0 = l)) as [->|Hne]; [exact Hset|].
    destruct Hs as (job0 & Hl0 & Hst). exists job0. by rewrite Hother.
  - unfold Worker.run_job. by rewrite Hl.
Qed.

Lemma run_jobs_settles invoke snapshot w l0 :
  effect_free invoke → raises_only_exceptions invoke →
  (∀ l, l ∈ snapshot → is_Some (heap w !! l)) →
  l0 ∈ snapshot ∨ settled l0 w →
  settled l0 (Worker.run_jobs invoke snapshot w).2.
Proof.
  intros Heff Hex. revert w. induction snapshot as [|l rest IH]; intros w Hvalid Hl0.
  - simpl. destruct Hl0 as [Hin|Hs]; [by apply elem_of_nil in Hin|exact Hs].
  - simpl.
    pose proof (run_job_returned invoke l w Hex) as Hret.
    destruct (run_job_settles invoke l w Heff Hex) as (Hset & _ & Hlen);
      [apply Hvalid; left|].
    pose proof (run_job_keeps_settled invoke l l0 w Heff Hex) as Hkeep.
    destruct (Worker.run_job invoke l w) as [c w1]. simpl in *. subst c.
    assert (Hsettled : settled l0 (Worker.run_jobs invoke rest w1).2).
    { apply IH.
      - intros l' Hl'. apply lookup_lt_is_Some. rewrite Hlen.
        apply lookup_lt_is_Some. apply Hvalid. by right.
      - destruct Hl0 as [Hin|Hs]; [|right; by apply Hkeep].
        apply elem_of_cons in Hin as [->|Hin]; [by right|by left]. }
    by destruct (Worker.run_jobs invoke rest w1) as [[c done] w2].
Qed.

Lemma references_exist_in_jobs q w l :
  references_exist q w → l ∈ Queue.jobs q w → is_Some (heap w !! l).
Proof.
  intros Hvalid Hl. apply list_elem_of_omap in Hl as (x & _ & Hx).
  apply lookup_lt_is_Some_2. by apply (map_Forall_lookup_1 _ _ _ _ Hvalid Hx).
Qed.

Lemma references_exist_preserved q w w' :
  queues_untouched w w' → (length (heap w) ≤ length (heap w'))%nat →
  references_exist q w → references_exist q w'.
Proof.
  intros (HQ & _ & _) Hlen Hvalid. unfold references_exist, Queue._jobs in *.
  rewrite HQ. eapply map_Forall_impl; [exact Hvalid|]. simpl. intros _ l Hl. lia.
Qed.

Lemma run_queues_settles invoke qs w l0 :
  effect_free invoke → raises_only_exceptions invoke →
  Forall (λ q, references_exist q w) qs →
  (∃ q, q ∈ qs ∧ l0 ∈ Queue.jobs q w) ∨ settled l0 w →
  settled l0 (Worker.run_queues invoke qs w).2.
Proof.
  intros Heff Hex. revert w. induction qs as [|q rest IH]; intros w Hvalid Hl0.
  - simpl. destruct Hl0 as [(q & Hq & _)|Hs]; [by apply elem_of_nil in Hq|exact Hs].
  - simpl. apply Forall_cons in Hvalid as [Hq Hrest].
    pose proof (run_jobs_untouched invoke (Queue.jobs q w) w
                  (effect_free_untouched invoke Heff)) as Hu.
    pose proof (run_jobs_keeps_objects invoke (Queue.jobs q w) w
                  (effect_free_keeps_objects invoke Heff)) as Hlen.
    pose proof (run_jobs_settles invoke (Queue.jobs q w) w l0 Heff Hex
                  (λ l, references_exist_in_jobs q w l Hq)) as Hset.
    destruct (run_jobs_all invoke (Queue.jobs q w) w Hex) as [w1 Hrun].
    rewrite Hrun in *. simpl in *.
    assert (Hsettled : settled l0 (Worker.run_queues invoke rest w1).2).
    { apply IH.
      - eapply Forall_impl; [exact Hrest|]. intros q' Hq'.
        by eapply references_exist_preserved.
      - destruct Hl0 as [(q0 & Hq0 & Hin)|Hs]; [|right; apply Hset; by right].
        apply elem_of_cons in Hq0 as [->|Hq0]; [right; apply Hset; by left|].
        left. exists q0. split; [done|]. by rewrite (queues_untouched_jobs q0 w w1 Hu). }
    by destruct (Worker.run_queues invoke rest w1) as [[c dones] w2].
Qed.

(** With targets that change nothing in the world and raise nothing outside
    [Exception], a drain leaves every job of every queue of the worker
    finished or failed, with an end time, whatever its status was before:
    queued, deferred, scheduled, stopped or canceled jobs are run all the
    same. *)
Theorem drain_settles_every_job
    (invoke : FuncId → list Value → gmap string Value → World → Outcome * World)
    (self : Worker) (w : World) (q : string) (l : nat) :
  effect_free invoke →
  raises_only_exceptions invoke →
  Forall (λ q, references_exist q w) (queues self) →
  q ∈ queues self →
  l ∈ Queue.jobs q w →
  settled l (Worker.work invoke self burst w).2.
Proof.
  intros Heff Hex Hvalid Hq Hl. rewrite work_burst.
  apply run_queues_settles; eauto.
Qed.

Lemma pure_targets_effect_free : effect_free pure_targets.
Proof. intros f a k w. apply pure_targets_world. Qed.

(** The second job of the drain test was stopped with [stop_rq_job]; the
    drain runs it and leaves it failed. *)
Lemma drain_settles_every_job_witness :
  effect_free pure_targets
  ∧ raises_only_exceptions pure_targets
  ∧ Forall (λ q, references_exist q one_stopped) (queues default_worker)
  ∧ "default" ∈ queues default_worker
  ∧ 1 ∈ Queue.jobs "default" one_stopped
  ∧ (status <$> heap one_stopped !! 1) = Some "stopped"
  ∧ settled 1 (Worker.work pure_targets default_worker burst one_stopped).2.
Proof.
  assert (H3 : Forall (λ q, references_exist q one_stopped) (queues default_worker))
    by (apply (bool_decide_unpack _); vm_compute; exact I).
  assert (H4 : "default" ∈ queues default_worker)
    by (apply (bool_decide_unpack _); vm_compute; exact I).
  assert (H5 : 1 ∈ Queue.jobs "default" one_stopped)
    by (apply (bool_decide_unpack _); vm_compute; exact I).
  split; [exact pure_targets_effect_free|].
  split; [exact pure_targets_raise_only_exceptions|].
  split; [exact H3|]. split; [exact H4|]. split; [exact H5|].
  split; [vm_compute; reflexivity|].
  exact (drain_settles_every_job pure_targets default_worker one_stopped "default" 1
           pure_targets_effect_free pure_targets_raise_only_exceptions H3 H4 H5).
Defined.

(** ** What the drain does not look at, and draining again *)

Lemma ended_within_weaken l lo lo' hi hi' w :
  ended_within l lo hi w → (lo' ≤ lo)%nat → (hi ≤ hi')%nat → ended_within l lo' hi' w.
Proof.
  intros (job & t & Hl & Hst & Ht & Hr) Hlo Hhi. exists job, t. repeat split; auto; lia.
Qed.

Lemma ended_after_write l g s w job :
  heap w !! l = Some job →
  s = JobStatus.FINISHED ∨ s = JobStatus.FAILED →
  ended_within l (clock w) (S (clock w)) (World.set_status l s (World.update_job l g w)).
Proof.
  intros Hl Hs. exists (Job.set_status s (clock w) (g job)), (clock w).
  split; [by apply lookup_after_write|].
  rewrite set_status_status, set_status_ended_at.
  split; [exact Hs|]. split; [by destruct Hs as [-> | ->]|lia].
Qed.

(** The clock does not go back during a pass. *)
Lemma run_jobs_clock invoke snapshot w :
  effect_free invoke → (clock w ≤ clock (Worker.run_jobs invoke snapshot w).2)%nat.
Proof.
  intros Heff.
  apply (run_jobs_preserves invoke (λ w1 w2, (clock w1 ≤ clock w2)%nat)); auto.
  - intros; lia.
  - intros. by rewrite Heff.
  - intros. simpl. lia.
Qed.

Lemma run_queues_clock invoke qs w :
  effect_free invoke → (clock w ≤ clock (Worker.run_queues invoke qs w).2)%nat.
Proof.
  intros Heff.
  apply (run_queues_preserves invoke (λ w1 w2, (clock w1 ≤ clock w2)%nat)); auto.
  - intros; lia.
  - intros. by rewrite Heff.
  - intros. simpl. lia.
Qed.

(** One iteration of the loop, with targets that change nothing and raise
    nothing outside [Exception]: the job is ended at the time the iteration
    read, and the clock has advanced by that one reading. *)
Lemma run_job_ends invoke l w :
  effect_free invoke → raises_only_exceptions invoke →
  is_Some (heap w !! l) →
  ended_within l (clock w) (S (clock w)) (Worker.run_job invoke l w).2
  ∧ clock (Worker.run_job invoke l w).2 = S (clock w).
Proof.
  intros Heff Hex [job Hl]. unfold Worker.run_job. rewrite Hl.
  destruct (func job) as [f|v].
  - pose proof (Heff f (args job) (kwargs job) w) as Hw.
    pose proof (Hex f (args job) (kwargs job) w) as Hno.
    destruct (invoke f (args job) (kwargs job) w) as [[v|[text|text]] w1];
      simpl in Hw; subst w1; [| |exfalso; by apply (Hno text)]; cbn [snd].
    + split; [apply (ended_after_write _ _ _ _ job); auto|reflexivity].
    + split; [apply (ended_after_write _ _ _ _ job); auto|reflexivity].
  - cbn [snd]. split; [|reflexivity].
    pose proof (ended_after_write l (λ j, j) JobStatus.FINISHED w job Hl) as H.
    rewrite update_job_id in H. apply H. by left.
Qed.

Lemma run_job_keeps_ended invoke l l0 lo w :
  effect_free invoke → raises_only_exceptions invoke →
  is_Some (heap w !! l) →
  (lo ≤ clock w)%nat →
  l0 = l ∨ ended_within l0 lo (clock w) w →
  ended_within l0 lo (S (clock w)) (Worker.run_job invoke l w).2.
Proof.
  intros Heff Hex Hsome Hlo Hl0.
  destruct (run_job_ends invoke l w Heff Hex Hsome) as [Hend _].
  destruct (run_job_settles invoke l w Heff Hex Hsome) as (_ & Hother & _).
  destruct (decide (l0 = l)) as [->|Hne].
  - eapply ended_within_weaken; [exact Hend|lia|lia].
  - destruct Hl0 as [->|(job0 & t & Hj & Hst & Ht & Hr)]; [done|].
    exists job0, t. rewrite (Hother l0 Hne). repeat split; auto; lia.
Qed.

Lemma run_jobs_ends invoke snapshot w l0 lo :
  effect_free invoke → raises_only_exceptions invoke →
  (∀ l, l ∈ snapshot → is_Some (heap w !! l)) →
  (lo ≤ clock w)%nat →
  l0 ∈ snapshot ∨ ended_within l0 lo (clock w) w →
  ended_within l0 lo (clock (Worker.run_jobs invoke snapshot w).2)
               (Worker.run_jobs invoke snapshot w).2.
Proof.
  intros Heff Hex. revert w. induction snapshot as [|l rest IH]; intros w Hvalid Hlo Hl0.
  - simpl. destruct Hl0 as [Hin|Hs]; [by apply elem_of_nil in Hin|exact Hs].
  - simpl.
    assert (Hsome : is_Some (heap w !! l)) by (apply Hvalid; left).
    pose proof (run_job_returned invoke l w Hex) as Hret.
    destruct (run_job_settles invoke l w Heff Hex Hsome) as (_ & _ & Hlen).
    destruct (run_job_ends invoke l w Heff Hex Hsome) as [_ Hclock].
    pose proof (run_job_keeps_ended invoke l l0 lo w Heff Hex Hsome Hlo) as Hkeep.
    destruct (Worker.run_job invoke l w) as [c w1]. simpl in *. subst c.
    assert (Hrest : ended_within l0 lo (clock (Worker.run_jobs invoke rest w1).2)
                                 (Worker.run_jobs invoke rest w1).2).
    { apply IH.
      - intros l' Hl'. apply lookup_lt_is_Some. rewrite Hlen.
        apply lookup_lt_is_Some. apply Hvalid. by right.
      - lia.
      - rewrite Hclock. destruct Hl0 as [Hin|Hs]; [|right; apply Hkeep; by right].
        apply elem_of_cons in Hin as [->|Hin]; [right; apply Hkeep; by left|by left]. }
    by destruct (Worker.run_jobs invoke rest w1) as [[c done] w2].
Qed.

Lemma run_queues_ends invoke qs w l0 lo :
  effect_free invoke → raises_only_exceptions invoke →
  Forall (λ q, references_exist q w) qs →
  (lo ≤ clock w)%nat →
  (∃ q, q ∈ qs ∧ l0 ∈ Queue.jobs q w) ∨ ended_within l0 lo (clock w) w →
  ended_within l0 lo (clock (Worker.run_queues invoke qs w).2)
               (Worker.run_queues invoke qs w).2.
Proof.
  intros Heff Hex. revert w. induction qs as [|q rest IH]; intros w Hvalid Hlo Hl0.
  - simpl. destruct Hl0 as [(q & Hq & _)|Hs]; [by apply elem_of_nil in Hq|exact Hs].
  - simpl. apply Forall_cons in Hvalid as [Hq Hrest].
    pose proof (run_jobs_untouched invoke (Queue.jobs q w) w
                  (effect_free_untouched invoke Heff)) as Hu.
    pose proof (run_jobs_keeps_objects invoke (Queue.jobs q w) w
                  (effect_free_keeps_objects invoke Heff)) as Hlen.
    pose proof (run_jobs_clock invoke (Queue.jobs q w) w Heff) as Hclock.
    pose proof (run_jobs_ends invoke (Queue.jobs q w) w l0 lo Heff Hex
                  (λ l, references_exist_in_jobs q w l Hq) Hlo) as Hend.
    destruct (run_jobs_all invoke (Queue.jobs q w) w Hex) as [w1 Hrun].
    rewrite Hrun in *. simpl in *.
    assert (Hended : ended_within l0 lo (clock (Worker.run_queues invoke rest w1).2)
                                  (Worker.run_queues invoke rest w1).2).
    { apply IH.
      - eapply Forall_impl; [exact Hrest|]. intros q' Hq'.
        by eapply references_exist_preserved.
      - lia.
      - destruct Hl0 as [(q0 & Hq0 & Hin)|Hs].
        + apply elem_of_cons in Hq0 as [->|Hq0]; [right; apply Hend; by left|].
          left. exists q0. split; [done|]. by rewrite (queues_untouched_jobs q0 w w1 Hu).
        + right. apply Hend. by right. }
    by destruct (Worker.run_queues invoke rest w1) as [[c dones] w2].
Qed.

Lemma run_queues_keeps_references invoke qs w q :
  effect_free invoke →
  references_exist q w → references_exist q (Worker.run_queues invoke qs w).2.
Proof.
  intros Heff. apply references_exist_preserved.
  - by apply run_queues_untouched, effect_free_untouched.
  - apply (run_queues_preserves invoke (λ w1 w2, (length (heap w1) ≤ length (heap w2))%nat));
      auto.
    + intros; lia.
    + intros. by rewrite Heff.
    + intros; rewrite heap_update_job, length_alter; lia.
    + intros; rewrite heap_update_job, length_alter; lia.
    + intros; rewrite heap_set_status, length_alter; lia.
Qed.

(** What [enqueue] and [enqueue_at] leave: the ids of every queue still
    refer to jobs of the heap. *)
Lemma references_exist_appended q q' i job w w' :
  heap w' = (heap w ++ [job])%list →
  _QUEUES w' = <[q := <[i := length (heap w)]> (Queue._jobs q w)]> (_QUEUES w) →
  references_exist q' w → references_exist q' w'.
Proof.
  intros Hh HQ Hvalid. unfold references_exist, Queue._jobs in *. rewrite HQ, Hh.
  rewrite length_app. simpl.
  destruct (decide (q = q')) as [<-|Hne].
  - rewrite lookup_insert_eq. simpl. apply map_Forall_insert_2; [lia|].
    eapply map_Forall_impl; [exact Hvalid|]. simpl. intros; lia.
  - rewrite lookup_insert_ne by done.
    eapply map_Forall_impl; [exact Hvalid|]. simpl. intros; lia.
Qed.

(** [work] does not look at the status, the dependency or the run time of a
    job.  The job that [enqueue] or [enqueue_at] returns is the last of
    [jobs], with the status deferred when it was given a dependency and
    queued otherwise, and with its [scheduled_at] when it was given one; and
    the next drain of a worker of that queue, with targets that change
    nothing and raise nothing outside [Exception], runs it all the same:
    after that drain the job is finished or failed, with an end time read
    during the drain. *)
Theorem next_drain_runs_deferred_and_scheduled
    (invoke : FuncId → list Value → gmap string Value → World → Outcome * World)
    (uuid4_hex : nat → string) (self : Worker) (q : string) (schedule_at : Value)
    (target : Target) (a : list Value) (kw : gmap string Value)
    (depends_on : Value) (job_id : option string) (w : World) :
  effect_free invoke →
  raises_only_exceptions invoke →
  q ∈ queues self →
  Forall (λ q', references_exist q' w) (queues self) →
  let e := Queue.enqueue uuid4_hex q target a kw depends_on job_id w in
  let s := Queue.enqueue_at uuid4_hex q schedule_at target a kw depends_on job_id w in
  let given := if truthy depends_on then JobStatus.DEFERRED else JobStatus.QUEUED in
  ((∃ before, Queue.jobs q e.2 = (before ++ [e.1])%list)
   ∧ (status <$> heap e.2 !! e.1) = Some given
   ∧ ended_within e.1 (clock e.2) (clock (Worker.work invoke self burst e.2).2)
                  (Worker.work invoke self burst e.2).2)
  ∧ ((∃ before, Queue.jobs q s.2 = (before ++ [s.1])%list)
     ∧ (status <$> heap s.2 !! s.1) = Some given
     ∧ (scheduled_at <$> heap s.2 !! s.1) = Some (Some schedule_at)
     ∧ ended_within s.1 (clock s.2) (clock (Worker.work invoke self burst s.2).2)
                    (Worker.work invoke self burst s.2).2).
Proof.
  intros Heff Hex Hq Hvalid. cbv zeta.
  assert (Hrun : ∀ w0 l before,
            Forall (λ q', references_exist q' w0) (queues self) →
            Queue.jobs q w0 = (before ++ [l])%list →
            ended_within l (clock w0) (clock (Worker.work invoke self burst w0).2)
                         (Worker.work invoke self burst w0).2).
  { intros w0 l before Hv Hjobs. rewrite work_burst.
    apply run_queues_ends; auto. left. exists q. split; [done|].
    rewrite Hjobs. apply elem_of_app. right. apply list_elem_of_here. }
  split.
  - destruct (enqueue_effect uuid4_hex q target a kw depends_on job_id w)
      as (job & w' & -> & Hh & _ & _ & Hst & _ & _ & _ & _ & _ & _ & HQ & HD & _).
    cbn [fst snd].
    pose proof (jobs_after_append q (id job) (length (heap w)) w w' HQ HD) as Hjobs.
    split; [by eexists|]. split; [by rewrite Hh, lookup_new_job, <- Hst|].
    apply (Hrun _ _ _ ltac:(eapply Forall_impl; [exact Hvalid|];
                            intros q'; by apply (references_exist_appended q q' (id job) job))
                 Hjobs).
  - destruct (enqueue_at_effect uuid4_hex q schedule_at target a kw depends_on job_id w)
      as (job & w' & -> & Hh & _ & Hst & Hsch & HQ & HD & _).
    cbn [fst snd].
    pose proof (jobs_after_append q (id job) (length (heap w)) w w' HQ HD) as Hjobs.
    split; [by eexists|]. split; [by rewrite Hh, lookup_new_job, <- Hst|].
    split; [by rewrite Hh, lookup_new_job, <- Hsch|].
    apply (Hrun _ _ _ ltac:(eapply Forall_impl; [exact Hvalid|];
                            intros q'; by apply (references_exist_appended q q' (id job) job))
                 Hjobs).
Qed.

(** A job deferred on a dependency and scheduled for time 99 is run by the
    drain that follows at once. *)
Lemma next_drain_runs_deferred_and_scheduled_witness :
  let s := Queue.enqueue_at sample_uuid4_hex "default" (VInt 99) (Callable "return_1")
             [] ∅ (VStr "uuid1") None one_job in
  let d := Worker.work pure_targets default_worker burst s.2 in
  effect_free pure_targets
  ∧ raises_only_exceptions pure_targets
  ∧ "default" ∈ queues default_worker
  ∧ Forall (λ q', references_exist q' one_job) (queues default_worker)
  ∧ (status <$> heap s.2 !! s.1) = Some "deferred"
  ∧ (scheduled_at <$> heap s.2 !! s.1) = Some (Some (VInt 99))
  ∧ ended_within s.1 (clock s.2) (clock d.2) d.2
  ∧ (status <$> heap d.2 !! s.1) = Some "finished".
Proof.
  intros s d.
  assert (H3 : "default" ∈ queues default_worker)
    by (apply (bool_decide_unpack _); vm_compute; exact I).
  assert (H4 : Forall (λ q', references_exist q' one_job) (queues default_worker))
    by (apply (bool_decide_unpack _); vm_compute; exact I).
  split; [exact pure_targets_effect_free|].
  split; [exact pure_targets_raise_only_exceptions|].
  split; [exact H3|]. split; [exact H4|].
  destruct (proj2 (next_drain_runs_deferred_and_scheduled pure_targets sample_uuid4_hex
                     default_worker "default" (VInt 99) (Callable "return_1") [] ∅
                     (VStr "uuid1") None one_job pure_targets_effect_free
                     pure_targets_raise_only_exceptions H3 H4)) as (_ & K2 & K3 & K4).
  split; [exact K2|]. split; [exact K3|]. split; [exact K4|]. vm_compute. reflexivity.
Defined.

(** A drain does not take jobs off the queue, so the next drain runs them
    again.  With targets that change nothing and raise nothing outside
    [Exception], [work(burst=True)] runs every job of every queue of the
    worker, finished and failed ones included, and a second call runs the
    same jobs once more: after the first call each of them is finished or
    failed with an end time read during the first call, after the second
    with an end time read during the second. *)
Theorem draining_twice_runs_every_job_twice
    (invoke : FuncId → list Value → gmap string Value → World → Outcome * World)
    (self : Worker) (w : World) :
  effect_free invoke →
  raises_only_exceptions invoke →
  Forall (λ q, references_exist q w) (queues self) →
  let first := Worker.work invoke self burst w in
  let second := Worker.work invoke self burst first.2 in
  first.1 = (Returned, (λ q, (q, Queue.jobs q w)) <$> queues self)
  ∧ second.1 = first.1
  ∧ (clock w ≤ clock first.2 ≤ clock second.2)%nat
  ∧ ∀ q l, q ∈ queues self → l ∈ Queue.jobs q w →
      ended_within l (clock w) (clock first.2) first.2
      ∧ ended_within l (clock first.2) (clock second.2) second.2.
Proof.
  intros Heff Hex Hvalid. cbv zeta. rewrite !work_burst.
  pose proof (effect_free_untouched invoke Heff) as Hinv.
  pose proof (run_queues_untouched invoke (queues self) w Hinv) as Hu.
  rewrite !(run_queues_runs_all invoke _ _ Hinv Hex).
  split; [reflexivity|].
  split; [by rewrite (snapshots_untouched (queues self) w _ Hu)|].
  split; [split; by apply run_queues_clock|].
  intros q l Hq Hl. split.
  - apply run_queues_ends; auto. left. by exists q.
  - apply run_queues_ends; auto.
    + eapply Forall_impl; [exact Hvalid|]. intros q'.
      by apply run_queues_keeps_references.
    + left. exists q. split; [done|]. by rewrite (queues_untouched_jobs q w _ Hu).
Qed.

(** The drain test drained twice: the raising job is failed with the end
    time 7, read during the first call, and then failed again with the end
    time 10, read during the second. *)
Lemma draining_twice_runs_every_job_twice_witness :
  let first := Worker.work pure_targets default_worker burst three_jobs in
  let second := Worker.work pure_targets default_worker burst first.2 in
  effect_free pure_targets
  ∧ raises_only_exceptions pure_targets
  ∧ Forall (λ q, references_exist q three_jobs) (queues default_worker)
  ∧ first.1 = (Returned, [("default", [0; 1; 2])]) ∧ second.1 = first.1
  ∧ ended_within 1 (clock three_jobs) (clock first.2) first.2
  ∧ ended_within 1 (clock first.2) (clock second.2) second.2
  ∧ (ended_at <$> heap first.2 !! 1) = Some (Some 7)
  ∧ (ended_at <$> heap second.2 !! 1) = Some (Some 10).
Proof.
  intros first second.
  assert (H3 : Forall (λ q, references_exist q three_jobs) (queues default_worker))
    by (apply (bool_decide_unpack _); vm_compute; exact I).
  assert (H4 : "default" ∈ queues default_worker)
    by (apply (bool_decide_unpack _); vm_compute; exact I).
  assert (H5 : 1 ∈ Queue.jobs "default" three_jobs)
    by (apply (bool_decide_unpack _); vm_compute; exact I).
  split; [exact pure_targets_effect_free|].
  split; [exact pure_targets_raise_only_exceptions|].
  split; [exact H3|].
  destruct (draining_twice_runs_every_job_twice pure_targets default_worker three_jobs
              pure_targets_effect_free pure_targets_raise_only_exceptions H3)
    as (K1 & K2 & _ & K4).
  split; [exact K1|]. split; [exact K2|].
  destruct (K4 "default" 1 H4 H5) as [K5 K6].
  split; [exact K5|]. split; [exact K6|].
  split; vm_compute; reflexivity.
Defined.

(** ** What one run writes to its job *)

(** A run writes the result or the error text of its job, never both.  When
    the target returns, the job gets the result and the status finished and
    keeps the error text it had; when it raises an [Exception], the job gets
    the error text and the status failed and keeps the result it had.  So a
    job that failed and then succeeds is finished with the error text of the
    failure still on it.  In both cases [started_at] is left as it was. *)
Theorem run_writes_result_or_error
    (invoke : FuncId → list Value → gmap string Value → World → Outcome * World)
    (l : nat) (w w1 : World) (job job1 : Job) (f : FuncId) (out : Outcome) :
  heap w !! l = Some job →
  func job = Callable f →
  invoke f (args job) (kwargs job) w = (out, w1) →
  heap w1 !! l = Some job1 →
  match out with
  | Returns v =>
      ∃ job', heap (Worker.run_job invoke l w).2 !! l = Some job'
              ∧ status job' = JobStatus.FINISHED ∧ result job' = v
              ∧ exc_info job' = exc_info job1
              ∧ started_at job' = started_at job1
              ∧ ended_at job' = Some (clock w1)
  | Raises (OfException text) =>
      ∃ job', heap (Worker.run_job invoke l w).2 !! l = Some job'
              ∧ status job' = JobStatus.FAILED ∧ exc_info job' = Some text
              ∧ result job' = result job1
              ∧ started_at job' = started_at job1
              ∧ ended_at job' = Some (clock w1)
  | Raises (OfBaseExceptionOnly text) =>
      Worker.run_job invoke l w = (Propagated text, w1)
  end.
Proof.
  intros Hl Hf Hi Hl1. destruct out as [v|[text|text]].
  - rewrite (run_job_returns invoke l w job f v w1 Hl Hf Hi). cbn [snd].
    eexists. split; [by apply lookup_after_write|].
    rewrite set_status_status, set_status_started_at, set_status_ended_at.
    pose proof (set_status_payload JobStatus.FINISHED (clock w1) (Job.with_result v job1))
      as (_ & _ & _ & -> & -> & _).
    repeat split; reflexivity.
  - rewrite (run_job_raises invoke l w job f text w1 Hl Hf Hi). cbn [snd].
    eexists. split; [by apply lookup_after_write|].
    rewrite set_status_status, set_status_started_at, set_status_ended_at.
    pose proof (set_status_payload JobStatus.FAILED (clock w1)
                  (Job.with_exc_info (Some text) job1)) as (_ & _ & _ & -> & -> & _).
    repeat split; reflexivity.
  - by eapply run_job_propagates.
Qed.

(** The job that failed once is run again and its target now returns 7: it
    is finished with result 7 and still carries the text of the failure. *)
Lemma run_writes_result_or_error_witness :
  heap failed_once !! 0 = Some the_failed_job
  ∧ func the_failed_job = Callable "flaky"
  ∧ flaky_targets "flaky" (args the_failed_job) (kwargs the_failed_job) failed_once
    = (Returns (VInt 7), failed_once)
  ∧ ∃ job', heap (Worker.run_job flaky_targets 0 failed_once).2 !! 0 = Some job'
            ∧ status job' = JobStatus.FINISHED ∧ result job' = VInt 7
            ∧ exc_info job' = Some "too early"
            ∧ started_at job' = None
            ∧ ended_at job' = Some (clock failed_once).
Proof.
  assert (H1 : heap failed_once !! 0 = Some the_failed_job) by (vm_compute; reflexivity).
  assert (H2 : func the_failed_job = Callable "flaky") by reflexivity.
  assert (H3 : flaky_targets "flaky" (args the_failed_job) (kwargs the_failed_job)
                 failed_once = (Returns (VInt 7), failed_once)) by (vm_compute; reflexivity).
  split; [exact H1|]. split; [exact H2|]. split; [exact H3|].
  exact (run_writes_result_or_error flaky_targets 0 failed_once failed_once
           the_failed_job the_failed_job "flaky" (Returns (VInt 7)) H1 H2 H3 H1).
Defined.

(** ** The job helpers of core/utils.py *)

Lemma same_content_get_queue name w w' :
  same_content w w' → same_content w (get_queue name w').
Proof.
  intros (HJ & Hh & Hd & Hi & Hc).
  destruct (get_queue_rest name w') as (Hh' & Hd' & Hi' & _ & Hc' & _).
  split; [intros q; by rewrite get_queue_jobs|]. repeat split; congruence.
Qed.

Lemma same_content_refl w : same_content w w.
Proof. by repeat split. Qed.

Lemma same_content_fetch w w' q job_id :
  same_content w w' → Queue.fetch_job q job_id w' = Queue.fetch_job q job_id w.
Proof. intros (HJ & _). unfold Queue.fetch_job. by rewrite HJ. Qed.

(** [RQ_Job.fetch] returns the job of the first holder and changes nothing
    but, possibly, queue objects without jobs. *)
Lemma RQ_Job_fetch_first_holder job_id w :
  (RQ_Job_fetch job_id w).1
  = (first_holder job_id w ≫= λ q, Queue.fetch_job q job_id w)
  ∧ same_content w (RQ_Job_fetch job_id w).2.
Proof.
  unfold RQ_Job_fetch, first_holder.
  pose proof (same_content_get_queue "default" w w (same_content_refl w)) as H1.
  pose proof (same_content_get_queue "high" w _ H1) as H2.
  pose proof (same_content_get_queue "low" w _ H2) as H3.
  rewrite (same_content_fetch w _ "default" job_id H1).
  destruct (Queue.fetch_job "default" job_id w) as [l|] eqn:Hd.
  { rewrite bool_decide_eq_true_2 by by eexists. simpl. by rewrite Hd. }
  rewrite bool_decide_eq_false_2 by (by intros [? ?]).
  rewrite (same_content_fetch w _ "high" job_id H2).
  destruct (Queue.fetch_job "high" job_id w) as [l|] eqn:Hh.
  { rewrite bool_decide_eq_true_2 by by eexists. simpl. by rewrite Hh. }
  rewrite bool_decide_eq_false_2 by (by intros [? ?]).
  rewrite (same_content_fetch w _ "low" job_id H3). simpl.
  destruct (Queue.fetch_job "low" job_id w) as [l|] eqn:Hl.
  { rewrite bool_decide_eq_true_2 by by eexists. simpl. by rewrite Hl. }
  rewrite bool_decide_eq_false_2 by (by intros [? ?]). done.
Qed.

(** The helpers look in the queues default, high and low only.  A job id
    that none of the three maps is reported as not found by [stop_rq_job],
    [requeue_rq_job] and [delete_rq_job], also when a queue of another name
    holds the job, and the jobs, mappings, orderings and registries are left
    as they were. *)
Theorem helpers_see_three_queues (job_id : string) (w : World) :
  Queue.fetch_job "default" job_id w = None →
  Queue.fetch_job "high" job_id w = None →
  Queue.fetch_job "low" job_id w = None →
  (stop_rq_job job_id w).1 = false
  ∧ (requeue_rq_job job_id w).1 = false
  ∧ (delete_rq_job job_id w).1 = false
  ∧ same_content w (stop_rq_job job_id w).2
  ∧ same_content w (requeue_rq_job job_id w).2
  ∧ same_content w (delete_rq_job job_id w).2.
Proof.
  intros Hd Hh Hl.
  destruct (RQ_Job_fetch_first_holder job_id w) as [Hres Hsame].
  unfold first_holder in Hres. rewrite Hd, Hh, Hl in Hres.
  rewrite !bool_decide_eq_false_2 in Hres by (by intros [? ?]). simpl in Hres.
  unfold stop_rq_job, requeue_rq_job, delete_rq_job.
  destruct (RQ_Job_fetch job_id w) as [res w']. simpl in *. subst res.
  repeat split; auto; apply Hsame.
Qed.

(** A job in the queue reports is there for [fetch_job] but not for the
    helpers. *)
Lemma helpers_see_three_queues_witness :
  Queue.fetch_job "default" "r1" in_another_queue = None
  ∧ Queue.fetch_job "high" "r1" in_another_queue = None
  ∧ Queue.fetch_job "low" "r1" in_another_queue = None
  ∧ Queue.fetch_job "reports" "r1" in_another_queue = Some 0
  ∧ (stop_rq_job "r1" in_another_queue).1 = false
  ∧ (delete_rq_job "r1" in_another_queue).1 = false.
Proof.
  assert (H1 : Queue.fetch_job "default" "r1" in_another_queue = None)
    by (vm_compute; reflexivity).
  assert (H2 : Queue.fetch_job "high" "r1" in_another_queue = None)
    by (vm_compute; reflexivity).
  assert (H3 : Queue.fetch_job "low" "r1" in_another_queue = None)
    by (vm_compute; reflexivity).
  repeat (split; [assumption|]).
  split; [vm_compute; reflexivity|].
  destruct (helpers_see_three_queues "r1" in_another_queue H1 H2 H3)
    as (Hs & _ & Hdel & _).
  split; assumption.
Defined.

Lemma first_holder_cases job_id w q :
  first_holder job_id w = Some q →
  is_Some (Queue.fetch_job q job_id w)
  ∧ ((q = "default")
     ∨ (q = "high" ∧ Queue.fetch_job "default" job_id w = None)
     ∨ (q = "low" ∧ Queue.fetch_job "default" job_id w = None
        ∧ Queue.fetch_job "high" job_id w = None)).
Proof.
  unfold first_holder. intros H.
  repeat case_bool_decide; simplify_eq; split; auto;
    repeat match goal with
           | H : ¬ is_Some _ |- _ => apply eq_None_not_Some in H
           end; auto.
Qed.

Lemma delete_rq_job_world job_id w q :
  first_holder job_id w = Some q →
  ∃ w', same_content w w'
        ∧ delete_rq_job job_id w
          = (true, World.with_QUEUES (<[q := delete job_id (Queue._jobs q w')]> (_QUEUES w')) w').
Proof.
  intros Hq. destruct (first_holder_cases job_id w q Hq) as [[l Hl] Hcase].
  destruct (RQ_Job_fetch_first_holder job_id w) as [Hres Hsame].
  rewrite Hq in Hres. simpl in Hres. rewrite Hl in Hres.
  unfold delete_rq_job. destruct (RQ_Job_fetch job_id w) as [res w']. simpl in *.
  subst res. exists w'. split; [exact Hsame|]. f_equal.
  pose proof (λ q0, same_content_fetch w w' q0 job_id Hsame) as Hf.
  unfold Queue.fetch_job in *.
  destruct Hcase as [->|[[-> Hd]|(-> & Hd & Hh)]].
  - rewrite bool_decide_eq_true_2; [done|]. rewrite Hf. by eexists.
  - rewrite bool_decide_eq_false_2 by (rewrite Hf, Hd; by intros [? ?]).
    rewrite bool_decide_eq_true_2; [done|]. rewrite Hf. by eexists.
  - rewrite bool_decide_eq_false_2 by (rewrite Hf, Hd; by intros [? ?]).
    rewrite bool_decide_eq_false_2 by (rewrite Hf, Hh; by intros [? ?]).
    rewrite bool_decide_eq_true_2; [done|]. rewrite Hf. by eexists.
Qed.

(** [delete_rq_job] takes the job out of the mapping of the first of the
    queues default, high, low that holds its id, and out of nothing else:
    [fetch_job] no longer finds it and [count] drops by one, but the durable
    ordering keeps the entry, the registries keep the id, the job object
    stays, and other queues that map the same id keep it. *)
Theorem delete_rq_job_keeps_the_ordering (job_id : string) (w : World) (q : string) :
  first_holder job_id w = Some q →
  let r := delete_rq_job job_id w in
  r.1 = true
  ∧ Queue.fetch_job q job_id r.2 = None
  ∧ Queue.count q r.2 = pred (Queue.count q w)
  ∧ (∀ other, other ≠ job_id → Queue.fetch_job q other r.2 = Queue.fetch_job q other w)
  ∧ (∀ q', q' ≠ q → Queue._jobs q' r.2 = Queue._jobs q' w)
  ∧ deques r.2 = deques w
  ∧ heap r.2 = heap w
  ∧ indexes r.2 = indexes w.
Proof.
  intros Hq. destruct (first_holder_cases job_id w q Hq) as [[l Hl] _].
  destruct (delete_rq_job_world job_id w q Hq) as (w' & (HJ & Hh & Hd & Hi & _) & ->).
  cbv zeta. cbn [fst snd]. unfold Queue.fetch_job, Queue.count in *.
  rewrite _jobs_insert, HJ.
  split; [done|]. split; [by rewrite lookup_delete_eq|].
  split; [rewrite map_size_delete; by rewrite Hl|].
  split; [intros other Hne; by rewrite lookup_delete_ne|].
  split; [intros q' Hne; by rewrite _jobs_other, HJ|].
  done.
Qed.

Lemma delete_rq_job_keeps_the_ordering_witness :
  first_holder "uuid2" three_jobs = Some "default"
  ∧ let r := delete_rq_job "uuid2" three_jobs in
    Queue.fetch_job "default" "uuid2" r.2 = None
    ∧ Queue.count "default" r.2 = 2
    ∧ Queue._deque "default" r.2 = ["uuid1"; "uuid2"; "uuid3"]
    ∧ Queue.jobs "default" r.2 = [0; 2].
Proof.
  assert (H : first_holder "uuid2" three_jobs = Some "default") by (vm_compute; reflexivity).
  split; [exact H|].
  destruct (delete_rq_job_keeps_the_ordering "uuid2" three_jobs "default" H)
    as (_ & Hf & _).
  cbv zeta. split; [exact Hf|]. vm_compute. repeat split; reflexivity.
Defined.

Lemma set_status_keeps_queues l s w w0 :
  same_content w0 w →
  (∀ q, Queue.jobs q (World.set_status l s w) = Queue.jobs q w0)
  ∧ indexes (World.set_status l s w) = indexes w0
  ∧ heap (World.set_status l s w) = alter (Job.set_status s (clock w0)) l (heap w0).
Proof.
  intros (HJ & Hh & Hd & Hi & Hc). split; [|split].
  - intros q. unfold Queue.jobs, Queue._deque. rewrite <- HJ, <- Hd. reflexivity.
  - by rewrite <- Hi.
  - by rewrite heap_set_status, Hh, Hc.
Qed.

Lemma helper_finds job_id w q l :
  first_holder job_id w = Some q →
  Queue.fetch_job q job_id w = Some l →
  ∃ w', same_content w w' ∧ RQ_Job_fetch job_id w = (Some l, w').
Proof.
  intros Hq Hl. destruct (RQ_Job_fetch_first_holder job_id w) as [Hres Hsame].
  rewrite Hq in Hres. simpl in Hres. rewrite Hl in Hres.
  destruct (RQ_Job_fetch job_id w) as [res w']. simpl in *. subst res. by exists w'.
Qed.

Lemma alter_as_insert {A} (f : A → A) (l : nat) (x : A) (h : list A) :
  h !! l = Some x → alter f l h = <[l := f x]> h.
Proof.
  intros Hl. apply list_eq. intros i. destruct (decide (i = l)) as [->|Hne].
  - rewrite list_lookup_alter_eq, Hl, list_lookup_insert_eq; [done|].
    by apply lookup_lt_Some in Hl.
  - by rewrite list_lookup_alter_ne, list_lookup_insert_ne.
Qed.

Lemma RQ_Job_fetch_workers job_id w : _WORKERS (RQ_Job_fetch job_id w).2 = _WORKERS w.
Proof.
  unfold RQ_Job_fetch.
  pose proof (get_queue_rest "default" w) as (_ & _ & _ & H1 & _).
  pose proof (get_queue_rest "high" (get_queue "default" w)) as (_ & _ & _ & H2 & _).
  pose proof (get_queue_rest "low" (get_queue "high" (get_queue "default" w)))
    as (_ & _ & _ & H3 & _).
  repeat case_match; cbn [snd]; congruence.
Qed.

(** [stop_rq_job] and [requeue_rq_job] change the status of the job and one
    time stamp, and nothing else.  The heap after the call is the heap before
    it with the one job replaced by itself with the new status and the new
    stamp: the stopped job is stopped with [ended_at] stamped, the requeued
    job is queued with [enqueued_at] stamped, every other field of the job
    ([started_at], the old [ended_at] of a requeued job, result, error text,
    id, target, arguments) and every other job is as before.  The mapping
    and the ordering of every queue are as before, so the job keeps its
    place in [jobs] (a requeued job is not appended again), and no registry
    and no worker is updated. *)
Theorem stop_and_requeue_write_status_only
    (job_id : string) (w : World) (q : string) (l : nat) (job : Job) :
  first_holder job_id w = Some q →
  Queue.fetch_job q job_id w = Some l →
  heap w !! l = Some job →
  let s := stop_rq_job job_id w in
  let r := requeue_rq_job job_id w in
  s.1 = true ∧ r.1 = true
  ∧ heap s.2
    = <[l := Job.with_ended_at (Some (clock w)) (Job.with_status "stopped" job)]> (heap w)
  ∧ heap r.2
    = <[l := Job.with_enqueued_at (Some (clock w)) (Job.with_status "queued" job)]> (heap w)
  ∧ (∃ job', heap s.2 !! l = Some job'
             ∧ status job' = "stopped" ∧ ended_at job' = Some (clock w)
             ∧ enqueued_at job' = enqueued_at job ∧ started_at job' = started_at job
             ∧ same_payload job job')
  ∧ (∃ job', heap r.2 !! l = Some job'
             ∧ status job' = "queued" ∧ enqueued_at job' = Some (clock w)
             ∧ ended_at job' = ended_at job ∧ started_at job' = started_at job
             ∧ same_payload job job')
  ∧ (∀ l0, l0 ≠ l → heap s.2 !! l0 = heap w !! l0 ∧ heap r.2 !! l0 = heap w !! l0)
  ∧ (∀ q0, Queue._jobs q0 s.2 = Queue._jobs q0 w ∧ Queue._jobs q0 r.2 = Queue._jobs q0 w
           ∧ Queue._deque q0 s.2 = Queue._deque q0 w ∧ Queue._deque q0 r.2 = Queue._deque q0 w
           ∧ Queue.jobs q0 s.2 = Queue.jobs q0 w ∧ Queue.jobs q0 r.2 = Queue.jobs q0 w)
  ∧ indexes s.2 = indexes w ∧ indexes r.2 = indexes w
  ∧ _WORKERS s.2 = _WORKERS w ∧ _WORKERS r.2 = _WORKERS w.
Proof.
  intros Hq Hf Hl. destruct (helper_finds job_id w q l Hq Hf) as (w' & Hsame & Hfetch).
  pose proof (RQ_Job_fetch_workers job_id w) as HW. rewrite Hfetch in HW. cbn [snd] in HW.
  cbv zeta. unfold stop_rq_job, requeue_rq_job. rewrite Hfetch. cbn [fst snd].
  destruct (set_status_keeps_queues l "stopped" w' w Hsame) as (HJs & HIs & HHs).
  destruct (set_status_keeps_queues l "queued" w' w Hsame) as (HJr & HIr & HHr).
  destruct Hsame as (HM & _ & HD & _).
  rewrite HHs, HHr.
  rewrite (alter_as_insert (Job.set_status "stopped" (clock w)) l job (heap w) Hl).
  rewrite (alter_as_insert (Job.set_status "queued" (clock w)) l job (heap w) Hl).
  assert (Hlt : (l < length (heap w))%nat) by (by apply lookup_lt_Some in Hl).
  split; [done|]. split; [done|]. split; [reflexivity|]. split; [reflexivity|].
  split.
  { eexists. split; [by apply list_lookup_insert_eq|].
    rewrite set_status_status, set_status_ended_at, set_status_enqueued_at,
      set_status_started_at.
    pose proof (set_status_payload "stopped" (clock w) job) as Hp.
    repeat split; try reflexivity; apply Hp. }
  split.
  { eexists. split; [by apply list_lookup_insert_eq|].
    rewrite set_status_status, set_status_ended_at, set_status_enqueued_at,
      set_status_started_at.
    pose proof (set_status_payload "queued" (clock w) job) as Hp.
    repeat split; try reflexivity; apply Hp. }
  split.
  { intros l0 Hne. by rewrite !list_lookup_insert_ne. }
  split.
  { intros q0. rewrite HJs, HJr. unfold Queue._jobs, Queue._deque. cbn.
    fold (Queue._jobs q0 w'). rewrite HM. fold (Queue._deque q0 w). by rewrite HD. }
  done.
Qed.

Lemma stop_and_requeue_write_status_only_witness :
  first_holder "uuid2" three_jobs = Some "default"
  ∧ Queue.fetch_job "default" "uuid2" three_jobs = Some 1
  ∧ heap three_jobs !! 1 = Some the_raising_job
  ∧ heap (stop_rq_job "uuid2" three_jobs).2
    = <[1 := Job.with_ended_at (Some (clock three_jobs))
               (Job.with_status "stopped" the_raising_job)]> (heap three_jobs).
Proof.
  assert (H1 : first_holder "uuid2" three_jobs = Some "default") by (vm_compute; reflexivity).
  assert (H2 : Queue.fetch_job "default" "uuid2" three_jobs = Some 1)
    by (vm_compute; reflexivity).
  assert (H3 : heap three_jobs !! 1 = Some the_raising_job) by (vm_compute; reflexivity).
  split; [exact H1|]. split; [exact H2|]. split; [exact H3|].
  exact (proj1 (proj2 (proj2 (stop_and_requeue_write_status_only "uuid2" three_jobs
                                "default" 1 the_raising_job H1 H2 H3)))).
Defined.

(** ** Statistics *)

Lemma same_content_len w w' c name :
  same_content w w' → BaseRegistry.len c name w' = BaseRegistry.len c name w.
Proof.
  intros (_ & _ & _ & Hi & _). unfold BaseRegistry.len, BaseRegistry.index. by rewrite Hi.
Qed.

Lemma _get_queue_statistics_reads name index w w0 :
  same_content w w0 →
  (_get_queue_statistics name index w0).1
  = mkQueueStatistics name (Queue.count name w) index "" "" 0
      (BaseRegistry.len FinishedJobRegistry name w)
      (BaseRegistry.len FailedJobRegistry name w)
      (BaseRegistry.len StartedJobRegistry name w)
      (BaseRegistry.len DeferredJobRegistry name w)
      (BaseRegistry.len ScheduledJobRegistry name w)
      (BaseRegistry.len CanceledJobRegistry name w)
  ∧ same_content w (_get_queue_statistics name index w0).2.
Proof.
  intros Hsame. pose proof (same_content_get_queue name w w0 Hsame) as Hq.
  unfold _get_queue_statistics. cbn [fst snd]. split; [|exact Hq].
  rewrite !(same_content_len w _ _ name Hq).
  unfold Queue.count. destruct Hq as (HJ & _). by rewrite HJ.
Qed.

(** [get_statistics] is a read of the queues and registries as they are: it
    reports the queues default, high, low with the indexes 0, 1, 2, for each
    its [count], the length of each of its six registries and 0 workers, and
    as total the sum of the three counts; queues of other names are not
    reported.  The call changes no job, mapping, ordering or registry. *)
Theorem get_statistics_reads_the_registries (w : World) :
  let r := get_statistics w in
  ((λ s, (stat_name s, stat_index s)) <$> stat_queues r.1)
  = [("default", 0); ("high", 1); ("low", 2)]
  ∧ Forall (describes w) (stat_queues r.1)
  ∧ jobs r.1 = Queue.count "default" w + Queue.count "high" w + Queue.count "low" w
  ∧ same_content w r.2.
Proof.
  cbv zeta. unfold get_statistics, QUEUES_LIST. cbn [queues_data].
  change (default 0 (QUEUES_MAP !! "default")) with 0.
  change (default 1 (QUEUES_MAP !! "high")) with 1.
  change (default 2 (QUEUES_MAP !! "low")) with 2.
  destruct (_get_queue_statistics_reads "default" 0 w w (same_content_refl w)) as [E1 S1].
  destruct (_get_queue_statistics "default" 0 w) as [s1 w1]. cbn [fst snd] in *.
  destruct (_get_queue_statistics_reads "high" 1 w w1 S1) as [E2 S2].
  destruct (_get_queue_statistics "high" 1 w1) as [s2 w2]. cbn [fst snd] in *.
  destruct (_get_queue_statistics_reads "low" 2 w w2 S2) as [E3 S3].
  destruct (_get_queue_statistics "low" 2 w2) as [s3 w3]. cbn [fst snd] in *.
  subst s1 s2 s3. cbn.
  split; [reflexivity|]. split; [|split; [lia|exact S3]].
  repeat constructor.
Qed.

(** ** The worker's paths that do keep the registries *)

Lemma index_set_status c n l s w :
  BaseRegistry.index c n (World.set_status l s w) = BaseRegistry.index c n w.
Proof. reflexivity. Qed.

Lemma heap_add c n job_id w : heap (BaseRegistry.add c n job_id w) = heap w.
Proof. reflexivity. Qed.

Lemma heap_remove c n job_id w : heap (BaseRegistry.remove c n job_id w) = heap w.
Proof. unfold BaseRegistry.remove. by case_bool_decide. Qed.

Lemma prepare_job_execution_world l w job :
  heap w !! l = Some job →
  Worker.prepare_job_execution l w
  = BaseRegistry.add StartedJobRegistry (origin job) (id job)
      (World.set_status l JobStatus.STARTED w)
  ∧ heap (Worker.prepare_job_execution l w) !! l
    = Some (Job.set_status JobStatus.STARTED (clock w) job).
Proof.
  intros Hl. unfold Worker.prepare_job_execution.
  assert (H : heap (World.set_status l JobStatus.STARTED w) !! l
              = Some (Job.set_status JobStatus.STARTED (clock w) job))
    by (by rewrite heap_set_status, list_lookup_alter_eq, Hl).
  rewrite H.
  pose proof (set_status_payload JobStatus.STARTED (clock w) job) as (-> & -> & _).
  split; [reflexivity|]. by rewrite heap_add.
Qed.

(** [prepare_job_execution] followed by [monitor_work_horse] moves a job from
    the Started to the Failed Registry only when the queue passed to
    [monitor_work_horse] is the job's origin.  After [prepare_job_execution]
    the job is started, with [started_at] stamped, and its id is in the
    Started Registry of its origin.  After [monitor_work_horse(job, queue)]
    the job is failed and its id is in the Failed Registry of [queue]; its id
    has left the Started Registry of its origin exactly when [queue] is that
    origin. *)
Theorem prepare_then_monitor_work_horse (l : nat) (q : string) (w : World) (job : Job) :
  heap w !! l = Some job →
  let p := Worker.prepare_job_execution l w in
  let m := Worker.monitor_work_horse l q p in
  (∃ job', heap p !! l = Some job'
           ∧ status job' = JobStatus.STARTED ∧ started_at job' = Some (clock w))
  ∧ BaseRegistry.contains StartedJobRegistry (origin job) (id job) p = true
  ∧ (∃ job', heap m !! l = Some job'
             ∧ status job' = JobStatus.FAILED ∧ ended_at job' = Some (clock p))
  ∧ BaseRegistry.contains FailedJobRegistry q (id job) m = true
  ∧ BaseRegistry.contains StartedJobRegistry (origin job) (id job) m
    = bool_decide (q ≠ origin job).
Proof.
  intros Hl. cbv zeta.
  destruct (prepare_job_execution_world l w job Hl) as [Hp Hlp].
  set (p := Worker.prepare_job_execution l w) in *.
  set (job1 := Job.set_status JobStatus.STARTED (clock w) job) in *.
  assert (Hid : id job1 = id job ∧ origin job1 = origin job).
  { pose proof (set_status_payload JobStatus.STARTED (clock w) job) as (? & ? & _). done. }
  destruct Hid as [Hid Ho].
  assert (Hstarted : BaseRegistry.contains StartedJobRegistry (origin job) (id job) p = true).
  { rewrite Hp. unfold BaseRegistry.contains. rewrite index_add_same.
    apply bool_decide_eq_true. set_solver. }
  split.
  { exists job1. split; [exact Hlp|]. unfold job1.
    by rewrite set_status_status, set_status_started_at. }
  split; [exact Hstarted|].
  set (job2 := Job.set_status JobStatus.FAILED (clock p) job1).
  assert (Hl2 : heap (World.set_status l JobStatus.FAILED p) !! l = Some job2)
    by (by rewrite heap_set_status, list_lookup_alter_eq, Hlp).
  assert (Hid2 : id job2 = id job).
  { unfold job2.
    by pose proof (set_status_payload JobStatus.FAILED (clock p) job1) as (-> & _). }
  assert (Hm : Worker.monitor_work_horse l q p
               = BaseRegistry.add FailedJobRegistry q (id job)
                   (BaseRegistry.remove StartedJobRegistry q (id job)
                      (World.set_status l JobStatus.FAILED p))).
  { unfold Worker.monitor_work_horse. by rewrite Hl2, Hid2. }
  rewrite Hm. split.
  { exists job2. rewrite heap_add, heap_remove. split; [exact Hl2|]. unfold job2.
    by rewrite set_status_status, set_status_ended_at. }
  split.
  { unfold BaseRegistry.contains. rewrite index_add_same.
    apply bool_decide_eq_true. set_solver. }
  unfold BaseRegistry.contains in *.
  destruct (registries_are_independent FailedJobRegistry StartedJobRegistry q (origin job)
              (id job) (BaseRegistry.remove StartedJobRegistry q (id job)
                          (World.set_status l JobStatus.FAILED p))) as (-> & _);
    [by intros [=]|].
  apply bool_decide_eq_true in Hstarted.
  destruct (decide (q = origin job)) as [->|Hne].
  - rewrite index_remove_same, index_set_status.
    rewrite (bool_decide_eq_false_2 (origin job ≠ origin job)) by (by intros H; apply H).
    apply bool_decide_eq_false. set_solver.
  - destruct (registries_are_independent StartedJobRegistry StartedJobRegistry q
                (origin job) (id job) (World.set_status l JobStatus.FAILED p))
      as (_ & -> & _); [by intros [=]|].
    rewrite index_set_status, (bool_decide_eq_true_2 (q ≠ origin job)) by done.
    by apply bool_decide_eq_true.
Qed.

Lemma prepare_then_monitor_work_horse_witness :
  heap three_jobs !! 1 = Some the_raising_job
  ∧ let p := Worker.prepare_job_execution 1 three_jobs in
    let m := Worker.monitor_work_horse 1 "default" p in
    BaseRegistry.contains FailedJobRegistry "default" "uuid2" m = true
    ∧ BaseRegistry.contains StartedJobRegistry "default" "uuid2" m = false.
Proof.
  assert (H : heap three_jobs !! 1 = Some the_raising_job) by (vm_compute; reflexivity).
  split; [exact H|].
  destruct (prepare_then_monitor_work_horse 1 "default" three_jobs the_raising_job H)
    as (_ & _ & _ & Hf & Hs).
  cbv zeta. split; [exact Hf|].
  transitivity (bool_decide ("default" ≠ origin the_raising_job));
    [exact Hs|vm_compute; reflexivity].
Defined.

(** ** An invariant of the queues *)

Lemma consistent_same_content w w' : same_content w w' → consistent w → consistent w'.
Proof.
  intros (HJ & Hh & Hd & _) Hc q job_id l Hl. rewrite HJ in Hl.
  unfold Queue._deque. rewrite Hd, Hh. by apply Hc.
Qed.

Lemma consistent_update_job l g w :
  (∀ j, id (g j) = id j) → consistent w → consistent (World.update_job l g w).
Proof.
  intros Hg Hc q job_id l0 Hl0.
  destruct (Hc q job_id l0 Hl0) as (Hin & job & Hjob & Hid). split; [exact Hin|].
  rewrite heap_update_job. destruct (decide (l = l0)) as [->|Hne].
  - exists (g job). rewrite list_lookup_alter_eq, Hjob. split; [reflexivity|]. by rewrite Hg.
  - exists job. by rewrite list_lookup_alter_ne.
Qed.

Lemma consistent_set_status l s w : consistent w → consistent (World.set_status l s w).
Proof.
  intros Hc q job_id l0 Hl0.
  destruct (Hc q job_id l0 Hl0) as (Hin & job & Hjob & Hid). split; [exact Hin|].
  rewrite heap_set_status. destruct (decide (l = l0)) as [->|Hne].
  - eexists. rewrite list_lookup_alter_eq, Hjob. split; [reflexivity|].
    by pose proof (set_status_payload s (clock w) job) as (-> & _).
  - exists job. by rewrite list_lookup_alter_ne.
Qed.

Lemma consistent_indexes r w : consistent w → consistent (World.with_indexes r w).
Proof. intros Hc. exact Hc. Qed.

Lemma consistent_add c n job_id w : consistent w → consistent (BaseRegistry.add c n job_id w).
Proof. apply consistent_indexes. Qed.

Lemma consistent_remove c n job_id w :
  consistent w → consistent (BaseRegistry.remove c n job_id w).
Proof. unfold BaseRegistry.remove. case_bool_decide; [apply consistent_indexes|done]. Qed.

Lemma consistent_enqueue uuid4_hex q target a kw depends_on job_id w :
  consistent w →
  consistent (Queue.enqueue uuid4_hex q target a kw depends_on job_id w).2.
Proof.
  intros Hc.
  destruct (enqueue_effect uuid4_hex q target a kw depends_on job_id w)
    as (job & w' & -> & Hheap & _ & _ & _ & _ & _ & _ & _ & _ & _ & HQ & HD & _).
  cbn [snd]. intros q0 i l0. unfold Queue._jobs at 1. unfold Queue._deque at 1.
  rewrite HQ, HD, Hheap. destruct (decide (q = q0)) as [<-|Hq].
  - rewrite !lookup_insert_eq. simpl. destruct (decide (id job = i)) as [<-|Hi].
    + rewrite lookup_insert_eq. intros [= <-]. split; [set_solver|].
      exists job. split; [apply lookup_new_job|reflexivity].
    + rewrite lookup_insert_ne by done. intros Hl0.
      destruct (Hc q i l0 Hl0) as (Hin & job0 & Hjob0 & Hid). split; [set_solver|].
      exists job0. split; [by apply lookup_app_l_Some|done].
  - rewrite !lookup_insert_ne by done. intros Hl0.
    destruct (Hc q0 i l0 Hl0) as (Hin & job0 & Hjob0 & Hid). split; [exact Hin|].
    exists job0. split; [by apply lookup_app_l_Some|done].
Qed.

Lemma consistent_enqueue_at uuid4_hex q schedule_at target a kw depends_on job_id w :
  consistent w →
  consistent (Queue.enqueue_at uuid4_hex q schedule_at target a kw depends_on job_id w).2.
Proof.
  intros Hc. unfold Queue.enqueue_at.
  pose proof (consistent_enqueue uuid4_hex q target a kw depends_on job_id w Hc) as He.
  destruct (Queue.enqueue uuid4_hex q target a kw depends_on job_id w) as [l w1].
  cbn [snd] in *.
  assert (Hu : consistent (World.update_job l (Job.with_scheduled_at (Some schedule_at)) w1))
    by (by apply consistent_update_job).
  destruct (heap _ !! l); [by apply consistent_add|exact Hu].
Qed.

Lemma consistent_empty q w : consistent w → consistent (Queue.empty q w).
Proof.
  intros Hc q0 i l0. unfold Queue.empty, Queue._jobs, Queue._deque. simpl.
  destruct (decide (q = q0)) as [<-|Hq].
  - rewrite !lookup_insert_eq. simpl. by rewrite lookup_empty.
  - rewrite !lookup_insert_ne by done. apply Hc.
Qed.

Lemma consistent_delete_rq_job job_id w :
  consistent w → consistent (delete_rq_job job_id w).2.
Proof.
  intros Hc. destruct (first_holder job_id w) as [q|] eqn:Hq.
  - destruct (delete_rq_job_world job_id w q Hq) as (w' & Hsame & ->). cbn [snd].
    pose proof (consistent_same_content w w' Hsame Hc) as Hc'.
    intros q0 i l0. unfold Queue._jobs at 1. simpl.
    destruct (decide (q = q0)) as [<-|Hne].
    + rewrite lookup_insert_eq. simpl. intros Hl0.
      apply lookup_delete_Some in Hl0 as [_ Hl0]. by apply Hc'.
    + rewrite lookup_insert_ne by done. apply Hc'.
  - destruct (RQ_Job_fetch_first_holder job_id w) as [Hres Hsame].
    rewrite Hq in Hres. simpl in Hres. unfold delete_rq_job.
    destruct (RQ_Job_fetch job_id w) as [res w']. simpl in *. subst res.
    by apply (consistent_same_content w).
Qed.

Lemma consistent_helper_status job_id s w :
  consistent w →
  consistent (match RQ_Job_fetch job_id w with
              | (Some l, w') => World.set_status l s w'
              | (None, w') => w'
              end).
Proof.
  intros Hc. destruct (RQ_Job_fetch_first_holder job_id w) as [_ Hsame].
  destruct (RQ_Job_fetch job_id w) as [[l|] w']; simpl in *.
  - apply consistent_set_status. by apply (consistent_same_content w).
  - by apply (consistent_same_content w).
Qed.

Lemma consistent_get_worker uuid4_hex queue_name name w :
  consistent w → consistent (Worker.get_worker uuid4_hex queue_name name w).2.
Proof.
  intros Hc.
  assert (Hq : consistent (get_queue queue_name w)).
  { apply (consistent_same_content w); [|done].
    apply same_content_get_queue, same_content_refl. }
  unfold Worker.get_worker. destruct (_WORKERS _ !! _); [exact Hq|].
  unfold Worker.init, Queue.uuid4. repeat case_match; simplify_eq; exact Hq.
Qed.

(** The queue operations keep the queues consistent: in a consistent world
    every id that a mapping holds is an entry of the ordering of that queue
    and refers to an existing job that carries that id.  A fresh process is
    consistent, and [get_queue], [get_worker], [enqueue], [enqueue_at], [empty], the
    registry operations, [prepare_job_execution], [monitor_work_horse],
    [stop_rq_job], [requeue_rq_job] and [delete_rq_job] keep it so, as does a
    whole drain whenever its targets do.  In a consistent world [fetch_job]
    under an id returns a job that carries that id and that [jobs] lists. *)
Theorem queues_stay_consistent
    (uuid4_hex : nat → string)
    (invoke : FuncId → list Value → gmap string Value → World → Outcome * World)
    (w : World) :
  consistent World.initial
  ∧ (consistent w →
     (∀ name, consistent (get_queue name w))
     ∧ (∀ queue_name name, consistent (Worker.get_worker uuid4_hex queue_name name w).2)
     ∧ (∀ q target a kw depends_on job_id,
          consistent (Queue.enqueue uuid4_hex q target a kw depends_on job_id w).2)
     ∧ (∀ q schedule_at target a kw depends_on job_id,
          consistent (Queue.enqueue_at uuid4_hex q schedule_at target a kw depends_on
                        job_id w).2)
     ∧ (∀ q, consistent (Queue.empty q w))
     ∧ (∀ c n job_id, consistent (BaseRegistry.add c n job_id w)
                      ∧ consistent (BaseRegistry.remove c n job_id w))
     ∧ (∀ l q, consistent (Worker.prepare_job_execution l w)
               ∧ consistent (Worker.monitor_work_horse l q w))
     ∧ (∀ job_id, consistent (stop_rq_job job_id w).2
                  ∧ consistent (requeue_rq_job job_id w).2
                  ∧ consistent (delete_rq_job job_id w).2)
     ∧ ((∀ f a k w0, consistent w0 → consistent (invoke f a k w0).2) →
        ∀ self kwargs, consistent (Worker.work invoke self kwargs w).2)
     ∧ (∀ q job_id l,
          Queue.fetch_job q job_id w = Some l →
          (id <$> heap w !! l) = Some job_id ∧ l ∈ Queue.jobs q w)).
Proof.
  split.
  { intros q job_id l. unfold Queue._jobs. simpl. by rewrite lookup_empty. }
  intros Hc.
  split; [intros name; apply (consistent_same_content w); [|done];
          apply same_content_get_queue, same_content_refl|].
  split; [intros; by apply consistent_get_worker|].
  split; [intros; by apply consistent_enqueue|].
  split; [intros; by apply consistent_enqueue_at|].
  split; [intros; by apply consistent_empty|].
  split; [intros; split; [by apply consistent_add|by apply consistent_remove]|].
  split.
  { intros l q. split.
    - unfold Worker.prepare_job_execution.
      pose proof (consistent_set_status l JobStatus.STARTED w Hc) as Hs.
      destruct (heap _ !! l); [by apply consistent_add|exact Hs].
    - unfold Worker.monitor_work_horse.
      pose proof (consistent_set_status l JobStatus.FAILED w Hc) as Hs.
      destruct (heap _ !! l); [by apply consistent_add, consistent_remove|exact Hs]. }
  split.
  { intros job_id. split; [|split; [|by apply consistent_delete_rq_job]].
    - pose proof (consistent_helper_status job_id "stopped" w Hc) as H.
      unfold stop_rq_job. by destruct (RQ_Job_fetch job_id w) as [[l|] w'].
    - pose proof (consistent_helper_status job_id "queued" w Hc) as H.
      unfold requeue_rq_job. by destruct (RQ_Job_fetch job_id w) as [[l|] w']. }
  split.
  { intros Hinv self kwargs.
    refine (work_preserves invoke (λ w1 w2, consistent w1 → consistent w2)
              _ _ _ _ _ _ self kwargs w Hc).
    - auto.
    - auto.
    - intros f a k w0. apply Hinv.
    - intros l v w0. by apply consistent_update_job.
    - intros l e w0. by apply consistent_update_job.
    - intros l s w0. apply consistent_set_status. }
  intros q job_id l Hl. unfold Queue.fetch_job in Hl.
  destruct (Hc q job_id l Hl) as (Hin & job & Hjob & Hid).
  split; [by rewrite Hjob; simpl; rewrite Hid|].
  apply list_elem_of_omap. by exists job_id.
Qed.

Lemma pure_targets_consistent f a k w0 :
  consistent w0 → consistent (pure_targets f a k w0).2.
Proof. by rewrite pure_targets_world. Qed.

(** The world of the drain test, before and after the drain, is consistent,
    so [fetch_job] of uuid2 gives a job with that id. *)
Lemma queues_stay_consistent_witness :
  consistent three_jobs
  ∧ consistent (Worker.work pure_targets default_worker burst three_jobs).2
  ∧ (id <$> heap three_jobs !! 1) = Some "uuid2".
Proof.
  pose proof (λ w, proj2 (queues_stay_consistent sample_uuid4_hex pure_targets w)) as K.
  pose proof (proj1 (queues_stay_consistent sample_uuid4_hex pure_targets World.initial))
    as Hinit.
  assert (H0 : consistent fresh).
  { destruct (K World.initial Hinit) as (_ & Kw & _). exact (Kw "default" None). }
  set (enq f w := (Queue.enqueue sample_uuid4_hex "default" (Callable f) [] ∅ VNone None w).2).
  assert (H1 : consistent (enq "return_1" fresh)).
  { destruct (K fresh H0) as (_ & _ & Ke & _). exact (Ke "default" _ _ _ _ _). }
  assert (H2 : consistent (enq "raise_boom" (enq "return_1" fresh))).
  { destruct (K _ H1) as (_ & _ & Ke & _). exact (Ke "default" _ _ _ _ _). }
  assert (H3 : consistent three_jobs).
  { destruct (K _ H2) as (_ & _ & Ke & _). exact (Ke "default" (Callable "return_3") [] ∅ VNone None). }
  destruct (K three_jobs H3) as (_ & _ & _ & _ & _ & _ & _ & _ & Kwork & Kfetch).
  split; [exact H3|]. split.
  - exact (Kwork pure_targets_consistent default_worker burst).
  - apply (Kfetch "default" "uuid2" 1). vm_compute. reflexivity.
Defined.

(** ** Job.exists and RQ_Job.exists *)

Lemma Job_exists_iff job_id w :
  Job_exists job_id w = true ↔ ∃ q, is_Some (Queue.fetch_job q job_id w).
Proof.
  unfold Job_exists, Queue.fetch_job, Queue._jobs. rewrite existsb_exists. split.
  - intros ([q m] & Hin & Hm). apply list_elem_of_In, elem_of_map_to_list in Hin.
    apply bool_decide_eq_true in Hm. exists q. by rewrite Hin.
  - intros (q & l & Hl). destruct (_QUEUES w !! q) as [m|] eqn:Hq; [|done].
    exists (q, m). split; [by apply list_elem_of_In, elem_of_map_to_list|].
    apply bool_decide_eq_true. by exists l.
Qed.

(** [Job.exists] looks in every queue, [RQ_Job.exists] of [core/utils.py] in
    default, high and low only: a job id exists for [Job.exists] exactly when
    [fetch_job] finds it in some queue, and for [RQ_Job.exists] exactly when
    one of those three queues finds it.  So whatever [RQ_Job.exists] reports
    as existing exists for [Job.exists], but not the other way round. *)
Theorem exists_in_any_queue_or_in_three (job_id : string) (w : World) :
  (Job_exists job_id w = true ↔ ∃ q, is_Some (Queue.fetch_job q job_id w))
  ∧ ((RQ_Job_exists job_id w).1 = true
     ↔ ∃ q, q ∈ ["default"; "high"; "low"] ∧ is_Some (Queue.fetch_job q job_id w))
  ∧ ((RQ_Job_exists job_id w).1 = true → Job_exists job_id w = true).
Proof.
  assert (H3 : (RQ_Job_exists job_id w).1 = true
               ↔ ∃ q, q ∈ ["default"; "high"; "low"]
                      ∧ is_Some (Queue.fetch_job q job_id w)).
  { unfold RQ_Job_exists. cbn [fst].
    destruct (RQ_Job_fetch_first_holder job_id w) as [-> _].
    rewrite bool_decide_eq_true. split.
    - destruct (first_holder job_id w) as [q|] eqn:Hq; [|by intros [? ?]].
      intros _. destruct (first_holder_cases job_id w q Hq)
        as [Hs [->|[[-> _]|(-> & _)]]]; eexists; (split; [|exact Hs]); set_solver.
    - intros (q & Hq & Hs). unfold first_holder.
      repeat case_bool_decide; simpl; try done.
      exfalso. set_unfold. destruct Hq as [->|[->|[->|[]]]]; tauto. }
  split; [apply Job_exists_iff|]. split; [exact H3|].
  intros H. apply Job_exists_iff. apply H3 in H as (q & _ & Hs). by exists q.
Qed.

(** The job in the queue reports exists for [Job.exists] and not for
    [RQ_Job.exists]. *)
Example exists_only_for_Job_exists :
  Job_exists "r1" in_another_queue = true
  ∧ (RQ_Job_exists "r1" in_another_queue).1 = false.
Proof. vm_compute. split; reflexivity. Qed.

(** ** The time stamps of a new job *)

(** [enqueue] reads the clock twice.  The new job is created at the first
    read; a job that is queued has [enqueued_at] at the second read, while a
    job deferred on a dependency has no [enqueued_at] at all; no new job has
    [started_at] or [ended_at]. *)
Theorem enqueue_time_stamps
    (uuid4_hex : nat → string) (q : string) (target : Target) (a : list Value)
    (kw : gmap string Value) (depends_on : Value) (job_id : option string) (w : World) :
  let r := Queue.enqueue uuid4_hex q target a kw depends_on job_id w in
  clock r.2 = S (S (clock w))
  ∧ ∃ job, heap r.2 !! r.1 = Some job
           ∧ created_at job = clock w
           ∧ enqueued_at job = (if truthy depends_on then None else Some (S (clock w)))
           ∧ started_at job = None
           ∧ ended_at job = None.
Proof.
  cbv zeta. unfold Queue.enqueue.
  set (pick := match job_id with
               | Some s => if String.eqb s "" then Queue.uuid4 uuid4_hex w else (s, w)
               | None => Queue.uuid4 uuid4_hex w
               end).
  assert (Hpick : ∃ i e, pick = (i, World.with_entropy e w)).
  { unfold pick, Queue.uuid4. destruct job_id as [s|]; [|by eexists _, _].
    destruct (String.eqb s ""); [by eexists _, _|].
    exists s, (entropy w). by destruct w. }
  destruct Hpick as (i & e & ->). simpl. split; [reflexivity|].
  eexists. split; [apply lookup_new_job|].
  rewrite set_status_enqueued_at, set_status_started_at, set_status_ended_at.
  pose proof (set_status_payload
                (if truthy depends_on then JobStatus.DEFERRED else JobStatus.QUEUED)
                (S (clock w)) (Job.with_args a kw (Job.init i q target (clock w))))
    as (_ & _ & -> & _).
  destruct (truthy depends_on); repeat split; reflexivity.
Qed.

(** ** get_jobs *)

Lemma initial_consistent : consistent World.initial.
Proof. intros q job_id l. unfold Queue._jobs. simpl. by rewrite lookup_empty. Qed.

Lemma three_jobs_consistent : consistent three_jobs.
Proof.
  pose proof (consistent_get_worker sample_uuid4_hex "default" None World.initial
                initial_consistent) as H0.
  pose proof (consistent_enqueue sample_uuid4_hex "default" (Callable "return_1") [] ∅
                VNone None _ H0) as H1.
  pose proof (consistent_enqueue sample_uuid4_hex "default" (Callable "raise_boom") [] ∅
                VNone None _ H1) as H2.
  exact (consistent_enqueue sample_uuid4_hex "default" (Callable "return_3") [] ∅
           VNone None _ H2).
Qed.

(** In a consistent world [get_jobs] answers for exactly the ids it is asked
    for that the queue holds, in the order asked: the ids of the jobs it
    returns are the asked ids with the unknown ones left out. *)
Theorem get_jobs_returns_the_asked (q : string) (job_ids : list string) (w : World) :
  consistent w →
  omap (λ l, id <$> heap w !! l) (get_jobs q job_ids w)
  = filter (λ job_id, is_Some (Queue.fetch_job q job_id w)) job_ids.
Proof.
  intros Hc. unfold get_jobs. induction job_ids as [|i rest IH]; [reflexivity|].
  csimpl. destruct (Queue.fetch_job q i w) as [l|] eqn:Hl.
  - rewrite filter_cons_True by (by rewrite Hl; eexists). csimpl.
    destruct (Hc q i l Hl) as (_ & job & Hjob & Hid).
    rewrite Hjob. simpl. by rewrite Hid, IH.
  - rewrite filter_cons_False by (rewrite Hl; by intros [? ?]). exact IH.
Qed.

Lemma get_jobs_returns_the_asked_witness :
  consistent three_jobs
  ∧ get_jobs "default" ["uuid3"; "gone"; "uuid1"] three_jobs = [2; 0]
  ∧ omap (λ l, id <$> heap three_jobs !! l)
         (get_jobs "default" ["uuid3"; "gone"; "uuid1"] three_jobs)
    = ["uuid3"; "uuid1"].
Proof.
  split; [exact three_jobs_consistent|]. split; [vm_compute; reflexivity|].
  rewrite (get_jobs_returns_the_asked "default" ["uuid3"; "gone"; "uuid1"] three_jobs
             three_jobs_consistent).
  vm_compute. reflexivity.
Defined.

(** ** A drain writes to the jobs of its own queues only *)

Lemma run_job_other invoke l l0 w :
  effect_free invoke → raises_only_exceptions invoke →
  l0 ≠ l → heap (Worker.run_job invoke l w).2 !! l0 = heap w !! l0.
Proof.
  intros Heff Hex Hne. destruct (heap w !! l) as [job|] eqn:Hl.
  - destruct (run_job_settles invoke l w Heff Hex) as (_ & Hother & _); [by eexists|].
    by apply Hother.
  - unfold Worker.run_job. by rewrite Hl.
Qed.

Lemma run_jobs_other invoke snapshot l0 w :
  effect_free invoke → raises_only_exceptions invoke →
  l0 ∉ snapshot → heap (Worker.run_jobs invoke snapshot w).2 !! l0 = heap w !! l0.
Proof.
  intros Heff Hex. revert w. induction snapshot as [|l rest IH]; intros w Hnot; [done|].
  simpl. apply not_elem_of_cons in Hnot as [Hne Hrest].
  pose proof (run_job_returned invoke l w Hex) as Hret.
  pose proof (run_job_other invoke l l0 w Heff Hex Hne) as Ho.
  destruct (Worker.run_job invoke l w) as [c w1]. simpl in *. subst c.
  specialize (IH w1 Hrest).
  destruct (Worker.run_jobs invoke rest w1) as [[c done] w2]. simpl in *. congruence.
Qed.

Lemma run_queues_other invoke qs l0 w :
  effect_free invoke → raises_only_exceptions invoke →
  Forall (λ q, l0 ∉ Queue.jobs q w) qs →
  heap (Worker.run_queues invoke qs w).2 !! l0 = heap w !! l0.
Proof.
  intros Heff Hex. revert w. induction qs as [|q rest IH]; intros w Hnot; [done|].
  simpl. apply Forall_cons in Hnot as [Hq Hrest].
  pose proof (run_jobs_untouched invoke (Queue.jobs q w) w
                (effect_free_untouched invoke Heff)) as Hu.
  pose proof (run_jobs_other invoke (Queue.jobs q w) l0 w Heff Hex Hq) as Ho.
  destruct (run_jobs_all invoke (Queue.jobs q w) w Hex) as [w1 Hrun].
  rewrite Hrun in *. simpl in *.
  assert (IH' : heap (Worker.run_queues invoke rest w1).2 !! l0 = heap w1 !! l0).
  { apply IH. eapply Forall_impl; [exact Hrest|]. intros q' Hq'.
    by rewrite (queues_untouched_jobs q' w w1 Hu). }
  destruct (Worker.run_queues invoke rest w1) as [[c dones] w2]. simpl in *. congruence.
Qed.

(** With targets that change nothing and raise nothing outside [Exception],
    a drain writes to the jobs of the worker's own queues only: a job that is
    in none of them is after the drain exactly what it was, and no registry,
    mapping or ordering of any queue has changed. *)
Theorem drain_writes_its_own_jobs_only
    (invoke : FuncId → list Value → gmap string Value → World → Outcome * World)
    (self : Worker) (w : World) (l : nat) :
  effect_free invoke →
  raises_only_exceptions invoke →
  Forall (λ q, l ∉ Queue.jobs q w) (queues self) →
  let w' := (Worker.work invoke self burst w).2 in
  heap w' !! l = heap w !! l
  ∧ indexes w' = indexes w
  ∧ _QUEUES w' = _QUEUES w
  ∧ deques w' = deques w.
Proof.
  intros Heff Hex Hnot. cbv zeta. rewrite work_burst.
  split; [by apply run_queues_other|].
  split.
  { rewrite <- work_burst. apply work_leaves_indexes. intros f a k w0. by rewrite Heff. }
  pose proof (run_queues_untouched invoke (queues self) w
                (effect_free_untouched invoke Heff)) as (HQ & HD & _).
  done.
Qed.

(** The job of the queue reports is not touched by a drain of the worker of
    default. *)
Lemma drain_writes_its_own_jobs_only_witness :
  let w := enqueue_all ["return_1"] in_another_queue in
  effect_free pure_targets
  ∧ raises_only_exceptions pure_targets
  ∧ Forall (λ q, 0 ∉ Queue.jobs q w) (queues default_worker)
  ∧ Queue.jobs "reports" w = [0]
  ∧ Queue.jobs "default" w = [1]
  ∧ heap (Worker.work pure_targets default_worker burst w).2 !! 0 = heap w !! 0.
Proof.
  intros w.
  assert (H : Forall (λ q, 0 ∉ Queue.jobs q w) (queues default_worker))
    by (apply (bool_decide_unpack _); vm_compute; exact I).
  split; [exact pure_targets_effect_free|].
  split; [exact pure_targets_raise_only_exceptions|].
  split; [exact H|]. split; [vm_compute; reflexivity|]. split; [vm_compute; reflexivity|].
  exact (proj1 (drain_writes_its_own_jobs_only pure_targets default_worker w 0
                  pure_targets_effect_free pure_targets_raise_only_exceptions H)).
Defined.
